(** * Black-Scholes option pricer: [projects/p01_option_pricer.py]

    A shallow embedding of the pricing core of the dashboard
    ([black_scholes], [calculate_greeks] and the payoff arrays built in
    [render]) together with the properties its specification states.

    Numbers.  The Python code works on binary64 floats; here every float is
    idealised as a real number ([R]), so rounding and overflow are outside
    the model.  What is kept of the float semantics is the border of the
    finite domain: an operation that numpy answers with NaN or an infinity
    (logarithm of a non-positive number, square root of a negative number,
    division of a numpy scalar by zero) yields the outcome [NonFinite], and
    the one operation that Python answers with an exception (the division
    [S / K] of two Python scalars by zero) yields [Raised ZeroDivisionError]. *)

From Stdlib Require Import Reals Lra Lia List String Bool Arith.
Import ListNotations.

Open Scope R_scope.

(** ** Outcomes of a call *)

(** Exception kinds.  [ZeroDivisionError] is the only one a path of the
    source can raise; [InvalidParameter] is the kind named by the
    specification, which no path of the source constructs. *)
Inductive exn : Type :=
| ZeroDivisionError
| InvalidParameter.

Inductive outcome (A : Type) : Type :=
| Finite (a : A)      (* the call returns, every intermediate value finite *)
| NonFinite           (* the call returns, some value was NaN or infinite *)
| Raised (e : exn).   (* the call raises *)

Arguments Finite {A} a.
Arguments NonFinite {A}.
Arguments Raised {A} e.

Definition bind {A B : Type} (m : outcome A) (f : A -> outcome B) : outcome B :=
  match m with
  | Finite a => f a
  | NonFinite => NonFinite
  | Raised e => Raised e
  end.

Definition ret {A : Type} (a : A) : outcome A := Finite a.

Notation "x <- m ;; k" := (bind m (fun x => k))
  (at level 61, m at next level, right associativity).

(** ** Arithmetic primitives *)

(** [x / y] on Python scalars. *)
Definition py_div (x y : R) : outcome R :=
  if Req_dec_T y 0 then Raised ZeroDivisionError else Finite (x / y).

(** [x / y] where an operand is a numpy scalar: a zero divisor gives an
    infinity or NaN and a warning, never an exception. *)
Definition np_div (x y : R) : outcome R :=
  if Req_dec_T y 0 then NonFinite else Finite (x / y).

(** [np.log]: [-inf] at zero and NaN below. *)
Definition np_log (x : R) : outcome R :=
  if Rlt_dec 0 x then Finite (ln x) else NonFinite.

(** [np.sqrt]: NaN below zero. *)
Definition np_sqrt (x : R) : outcome R :=
  if Rle_dec 0 x then Finite (sqrt x) else NonFinite.

(** [np.exp]. *)
Definition np_exp (x : R) : R := exp x.

(** ** The standard normal distribution ([scipy.stats.norm])

    [norm.pdf] and [norm.cdf] are library functions; they are modelled by
    the mathematical functions they compute.  The density is the Gaussian
    weight [exp (- x^2 / 2)] divided by its total mass, and the distribution
    function is one half plus the integral of the density from [0].  (The
    total mass is the Gaussian integral, [sqrt (2 * PI)]; nothing below
    depends on its numerical value, so it is introduced as the least upper
    bound of the partial integrals.) *)

Module Normal.

Definition gauss (t : R) : R := exp (- (t * t) / 2).

Lemma gauss_pos (t : R) : 0 < gauss t.
Proof. apply exp_pos. Qed.

Lemma gauss_even (t : R) : gauss (- t) = gauss t.
Proof. unfold gauss. f_equal. lra. Qed.

Lemma gauss_le_1 (t : R) : gauss t <= 1.
Proof.
  unfold gauss. rewrite <- exp_0.
  destruct (Req_dec (- (t * t) / 2) 0) as [E | E].
  - rewrite E. lra.
  - left. apply exp_increasing. nra.
Qed.

Lemma gauss_derivable (t : R) : derivable_pt gauss t.
Proof. unfold gauss. reg. Qed.

Lemma gauss_continuous (t : R) : continuity_pt gauss t.
Proof. apply derivable_continuous_pt, gauss_derivable. Qed.

Lemma gauss_integrable (a b : R) : Riemann_integrable gauss a b.
Proof.
  destruct (Rle_dec a b) as [Hab | Hab].
  - apply continuity_implies_RiemannInt; [exact Hab | intros; apply gauss_continuous].
  - apply RiemannInt_P1, continuity_implies_RiemannInt;
      [lra | intros; apply gauss_continuous].
Qed.

(** Partial integral of the weight from the origin. *)
Definition gauss_area (x : R) : R := RiemannInt (gauss_integrable 0 x).

Lemma gauss_area_0 : gauss_area 0 = 0.
Proof. apply RiemannInt_P9. Qed.

Lemma gauss_area_chasles (a z : R) (pr : Riemann_integrable gauss a z) :
  gauss_area z = gauss_area a + RiemannInt pr.
Proof.
  unfold gauss_area. symmetry. apply RiemannInt_P26.
Qed.

(** Fundamental theorem of calculus for the partial integral. *)
Lemma gauss_area_deriv (x : R) : derivable_pt_lim gauss_area x (gauss x).
Proof.
  assert (h : x - 1 <= x + 1) by lra.
  assert (C0 : forall z, x - 1 <= z <= x + 1 -> continuity_pt gauss z)
    by (intros; apply gauss_continuous).
  apply derivable_pt_lim_locally_ext
    with (f := fun z => gauss_area (x - 1) + primitive h (FTC_P1 h C0) z)
         (a := x - 1) (b := x + 1).
  - lra.
  - intros z Hz. unfold primitive.
    destruct (Rle_dec (x - 1) z) as [r | r]; [ | lra].
    destruct (Rle_dec z (x + 1)) as [r0 | r0]; [ | lra].
    symmetry. apply gauss_area_chasles.
  - replace (gauss x) with (0 + gauss x) by lra.
    apply derivable_pt_lim_plus.
    + apply derivable_pt_lim_const.
    + apply RiemannInt_P27. lra.
Qed.

(** Two consequences of the mean value theorem, in the form used below. *)
Lemma increasing_of_deriv (f f' : R -> R) :
  (forall x, derivable_pt_lim f x (f' x)) ->
  (forall x, 0 <= f' x) ->
  forall x y, x <= y -> f x <= f y.
Proof.
  intros Hd Hpos.
  pose (pr := fun x => exist (fun l => derivable_pt_lim f x l) (f' x) (Hd x)).
  apply (nonneg_derivative_1 f pr).
  intro x. simpl. apply Hpos.
Qed.

Lemma constant_of_deriv (f : R -> R) :
  (forall x, derivable_pt_lim f x 0) -> forall x y, f x = f y.
Proof.
  intros Hd.
  pose (pr := fun x => exist (fun l => derivable_pt_lim f x l) 0 (Hd x)).
  apply (null_derivative_1 f pr).
  intro x. reflexivity.
Qed.

Lemma gauss_area_incr (x y : R) : x <= y -> gauss_area x <= gauss_area y.
Proof.
  apply (increasing_of_deriv gauss_area gauss).
  - apply gauss_area_deriv.
  - intro t. left. apply gauss_pos.
Qed.

(** The weight is even, so its partial integral is odd. *)
Lemma gauss_area_odd (x : R) : gauss_area (- x) = - gauss_area x.
Proof.
  pose (F := fun t => gauss_area t + gauss_area (- t)).
  assert (Hc : forall a b, F a = F b).
  { apply constant_of_deriv. intro t. unfold F.
    replace 0 with (gauss t + gauss (- t) * (- 1)) by (rewrite gauss_even; lra).
    apply derivable_pt_lim_plus.
    - apply gauss_area_deriv.
    - apply (derivable_pt_lim_comp (fun u => - u) gauss_area).
      + replace (- 1) with (- (1)) by lra.
        apply derivable_pt_lim_opp, derivable_pt_lim_id.
      + apply gauss_area_deriv. }
  specialize (Hc x 0). unfold F in Hc.
  rewrite Ropp_0, gauss_area_0 in Hc. lra.
Qed.

(** The partial integrals are bounded: the weight lies below
    [exp (1/2 - t)], whose integral from [0] is at most [exp (1/2)]. *)
Lemma gauss_le_exp (t : R) : gauss t <= exp (/ 2 - t).
Proof.
  unfold gauss.
  destruct (Rtotal_order t 1) as [Ht | [Ht | Ht]].
  - left. apply exp_increasing. nra.
  - subst t. right. f_equal. lra.
  - left. apply exp_increasing. nra.
Qed.

Lemma gauss_area_bound (x : R) : gauss_area x <= exp (/ 2).
Proof.
  destruct (Rle_dec x 0) as [Hx | Hx].
  - apply Rle_trans with (gauss_area 0).
    + apply gauss_area_incr, Hx.
    + rewrite gauss_area_0. left. apply exp_pos.
  - pose (F := fun t => - exp (/ 2 - t) - gauss_area t).
    assert (Hm : F 0 <= F x).
    { apply (increasing_of_deriv F (fun t => exp (/ 2 - t) - gauss t)).
      - intro t. unfold F. apply derivable_pt_lim_minus.
        + replace (exp (/ 2 - t)) with (- (exp (/ 2 - t) * (0 - 1))) by lra.
          apply derivable_pt_lim_opp.
          apply (derivable_pt_lim_comp (fun u => / 2 - u) exp).
          * apply derivable_pt_lim_minus.
            -- apply derivable_pt_lim_const.
            -- apply derivable_pt_lim_id.
          * apply derivable_pt_lim_exp.
        + apply gauss_area_deriv.
      - intro t. cbv beta. generalize (gauss_le_exp t). lra.
      - lra. }
    unfold F in Hm. rewrite gauss_area_0 in Hm.
    replace (/ 2 - 0) with (/ 2) in Hm by lra.
    generalize (exp_pos (/ 2 - x)). lra.
Qed.

Lemma gauss_area_1_pos : 0 < gauss_area 1.
Proof.
  destruct (MVT_cor3 gauss_area gauss 0 1) as [c [_ [_ Hc]]].
  - lra.
  - intros; apply gauss_area_deriv.
  - rewrite Hc, gauss_area_0. generalize (gauss_pos c). lra.
Qed.

(** Half of the total mass: the least upper bound of the partial integrals. *)
Definition area_set (y : R) : Prop := exists x, y = gauss_area x.

Lemma area_set_bound : bound area_set.
Proof.
  exists (exp (/ 2)). intros y [x ->]. apply gauss_area_bound.
Qed.

Lemma area_set_inhabited : exists y, area_set y.
Proof. exists (gauss_area 0), 0. reflexivity. Qed.

Definition half_mass : R :=
  proj1_sig (completeness area_set area_set_bound area_set_inhabited).

Lemma half_mass_lub : is_lub area_set half_mass.
Proof.
  unfold half_mass.
  destruct (completeness area_set area_set_bound area_set_inhabited) as [m Hm].
  exact Hm.
Qed.

Lemma gauss_area_le_half (x : R) : gauss_area x <= half_mass.
Proof. apply half_mass_lub. exists x. reflexivity. Qed.

Lemma gauss_area_ge_half (x : R) : - half_mass <= gauss_area x.
Proof.
  generalize (gauss_area_le_half (- x)). rewrite gauss_area_odd. lra.
Qed.

Lemma half_mass_pos : 0 < half_mass.
Proof.
  generalize gauss_area_1_pos (gauss_area_le_half 1). lra.
Qed.

(** [norm.pdf] and [norm.cdf]. *)
Definition pdf (x : R) : R := gauss x / (2 * half_mass).

Definition cdf (x : R) : R := / 2 + gauss_area x / (2 * half_mass).

Lemma pdf_pos (x : R) : 0 < pdf x.
Proof.
  unfold pdf. apply Rdiv_lt_0_compat; [apply gauss_pos | ].
  generalize half_mass_pos. lra.
Qed.

Lemma pdf_even (x : R) : pdf (- x) = pdf x.
Proof. unfold pdf. now rewrite gauss_even. Qed.

(** The distribution function is a primitive of the density... *)
Lemma cdf_deriv (x : R) : derivable_pt_lim cdf x (pdf x).
Proof.
  unfold cdf, pdf.
  replace (gauss x / (2 * half_mass))
    with (0 + / (2 * half_mass) * gauss x) by (unfold Rdiv; lra).
  apply derivable_pt_lim_plus.
  - apply derivable_pt_lim_const.
  - apply (derivable_pt_lim_ext (fun t => / (2 * half_mass) * gauss_area t)).
    + intro t. unfold Rdiv. lra.
    + apply derivable_pt_lim_scal, gauss_area_deriv.
Qed.

Lemma cdf_incr (x y : R) : x <= y -> cdf x <= cdf y.
Proof.
  apply (increasing_of_deriv cdf pdf).
  - apply cdf_deriv.
  - intro t. left. apply pdf_pos.
Qed.

(** ... takes its values in [[0, 1]] ... *)
Lemma cdf_range (x : R) : 0 <= cdf x <= 1.
Proof.
  unfold cdf.
  assert (Hm := half_mass_pos).
  assert (Hu := gauss_area_le_half x).
  assert (Hl := gauss_area_ge_half x).
  assert (Hq : - / 2 <= gauss_area x / (2 * half_mass) <= / 2).
  { split.
    - apply Rmult_le_reg_r with (2 * half_mass); [lra | ].
      unfold Rdiv. rewrite Rmult_assoc, Rinv_l by lra. lra.
    - apply Rmult_le_reg_r with (2 * half_mass); [lra | ].
      unfold Rdiv. rewrite Rmult_assoc, Rinv_l by lra. lra. }
  lra.
Qed.

(** ... is symmetric about the origin ... *)
Lemma cdf_sym (x : R) : cdf (- x) = 1 - cdf x.
Proof.
  unfold cdf. rewrite gauss_area_odd. unfold Rdiv. lra.
Qed.

Lemma cdf_0 : cdf 0 = / 2.
Proof. unfold cdf. rewrite gauss_area_0. unfold Rdiv. lra. Qed.

(** ... and has total mass one: [1] is the least upper bound of its values. *)
Lemma cdf_sup : is_lub (fun y => exists x, y = cdf x) 1.
Proof.
  split.
  - intros y [x ->]. apply cdf_range.
  - intros b Hb.
    assert (Hm := half_mass_pos).
    assert (Hh : half_mass <= (b - / 2) * (2 * half_mass)).
    { apply half_mass_lub. intros y [x ->].
      assert (Hx : cdf x <= b) by (apply Hb; exists x; reflexivity).
      unfold cdf in Hx.
      replace (gauss_area x)
        with (gauss_area x / (2 * half_mass) * (2 * half_mass))
        by (field; lra).
      apply Rmult_le_compat_r; lra. }
    nra.
Qed.

End Normal.

Definition norm_cdf : R -> R := Normal.cdf.
Definition norm_pdf : R -> R := Normal.pdf.

(** ** The pricing functions *)

Open Scope string_scope.

(** [black_scholes(S, K, T, r, sigma, option_type)], returning the tuple
    [(price, d1, d2)]. *)
Definition black_scholes (S K T r sigma : R) (option_type : string)
  : outcome (R * R * R) :=
  q <- py_div S K ;;
  l <- np_log q ;;
  sT <- np_sqrt T ;;
  d1 <- np_div (l + (r + 0.5 * sigma ^ 2) * T) (sigma * sT) ;;
  sT' <- np_sqrt T ;;
  let d2 := d1 - sigma * sT' in
  let price :=
    if option_type =? "call" then
      S * norm_cdf d1 - K * np_exp (- r * T) * norm_cdf d2
    else
      K * np_exp (- r * T) * norm_cdf (- d2) - S * norm_cdf (- d1) in
  ret (price, d1, d2).

(** [calculate_greeks(S, K, T, r, sigma, option_type)], returning the tuple
    [(delta, gamma, theta)]. *)
Definition calculate_greeks (S K T r sigma : R) (option_type : string)
  : outcome (R * R * R) :=
  q <- py_div S K ;;
  l <- np_log q ;;
  sT <- np_sqrt T ;;
  d1 <- np_div (l + (r + 0.5 * sigma ^ 2) * T) (sigma * sT) ;;
  sT' <- np_sqrt T ;;
  let d2 := d1 - sigma * sT' in
  let delta :=
    if option_type =? "call" then norm_cdf d1 else norm_cdf d1 - 1 in
  sT2 <- np_sqrt T ;;
  gamma <- np_div (norm_pdf d1) (S * sigma * sT2) ;;
  sT3 <- np_sqrt T ;;
  decay <- np_div (- (S * norm_pdf d1 * sigma)) (2 * sT3) ;;
  let theta := decay - r * K * np_exp (- r * T) * norm_cdf d2 in
  let theta :=
    if option_type =? "put" then theta + r * K * np_exp (- r * T) else theta in
  ret (delta, gamma, theta).

(** ** The payoff arrays of [render] *)

(** [np.linspace(start, stop, num)] with the default [endpoint=True]:
    [num] samples [start + i * step] with [step = (stop - start) / (num - 1)],
    the last one set to [stop] itself. *)
Definition linspace (start stop : R) (num : nat) : list R :=
  match num with
  | O => []
  | 1%nat => [start]
  | Datatypes.S n =>
      let step := (stop - start) / INR n in
      map (fun i => INR i * step + start) (seq 0 n) ++ [stop]
  end.

(** [spot_range = np.linspace(S * 0.5, S * 1.5, num)].  The source passes
    the literal [100] for [num] (see [render_num]); the count is kept as an
    argument so that statements can range over it. *)
Definition spot_range (num : nat) (S : R) : list R :=
  linspace (S * 0.5) (S * 1.5) num.

(** The array [payoff] of net profits. *)
Definition payoff (num : nat) (S K price : R) (option_type : string) : list R :=
  if option_type =? "call" then
    map (fun s => Rmax (s - K) 0 - price) (spot_range num S)
  else
    map (fun s => Rmax (K - s) 0 - price) (spot_range num S).

(** The points of the chart: [x = spot_range], [y = payoff]. *)
Definition payoff_curve (num : nat) (S K price : R) (option_type : string)
  : list (R * R) :=
  combine (spot_range num S) (payoff num S K price option_type).

Definition render_num : nat := 100.

Definition render_payoff_curve : R -> R -> R -> string -> list (R * R) :=
  payoff_curve render_num.

(** ** The formulas of the specification *)

Module Spec.

Inductive OptionType : Type := Call | Put.

(** The string that stands for a variant in the source. *)
Definition tag (o : OptionType) : string :=
  match o with Call => "call" | Put => "put" end.

Section Formulas.
Variables (spot strike timeToMaturity riskFreeRate volatility : R).

Definition d1 : R :=
  (ln (spot / strike) + (riskFreeRate + 0.5 * volatility ^ 2) * timeToMaturity)
  / (volatility * sqrt timeToMaturity).

Definition d2 : R := d1 - volatility * sqrt timeToMaturity.

Definition price (o : OptionType) : R :=
  match o with
  | Call => spot * norm_cdf d1
            - strike * exp (- riskFreeRate * timeToMaturity) * norm_cdf d2
  | Put => strike * exp (- riskFreeRate * timeToMaturity) * norm_cdf (- d2)
           - spot * norm_cdf (- d1)
  end.

Definition delta (o : OptionType) : R :=
  match o with
  | Call => norm_cdf d1
  | Put => norm_cdf d1 - 1
  end.

Definition gamma : R :=
  norm_pdf d1 / (spot * volatility * sqrt timeToMaturity).

Definition theta_base : R :=
  - (spot * norm_pdf d1 * volatility) / (2 * sqrt timeToMaturity)
  - riskFreeRate * strike * exp (- riskFreeRate * timeToMaturity) * norm_cdf d2.

Definition theta (o : OptionType) : R :=
  match o with
  | Call => theta_base
  | Put => theta_base
           + riskFreeRate * strike * exp (- riskFreeRate * timeToMaturity)
  end.

End Formulas.

(** The [i]-th of [numPoints] evenly spaced values over
    [[spot * 0.5, spot * 1.5]] (linear interpolation). *)
Definition spot_at (spot : R) (numPoints i : nat) : R :=
  spot * 0.5 + INR i * ((spot * 1.5 - spot * 0.5) / INR (numPoints - 1)).

Definition netProfit (o : OptionType) (s strike price : R) : R :=
  match o with
  | Call => Rmax (s - strike) 0 - price
  | Put => Rmax (strike - s) 0 - price
  end.

(** The invariants of [OptionParameters]. *)
Definition valid (spot strike timeToMaturity volatility : R) : Prop :=
  0 < spot /\ 0 < strike /\ 0 < timeToMaturity /\ 0 < volatility.

End Spec.

(** * Properties *)

(** ** The primitives inside their domain *)

Lemma py_div_finite (x y : R) : y <> 0 -> py_div x y = Finite (x / y).
Proof. intro H. unfold py_div. destruct (Req_dec_T y 0); [contradiction | reflexivity]. Qed.

Lemma py_div_raises (x : R) : py_div x 0 = Raised ZeroDivisionError.
Proof. unfold py_div. destruct (Req_dec_T 0 0); [reflexivity | contradiction]. Qed.

Lemma np_div_finite (x y : R) : y <> 0 -> np_div x y = Finite (x / y).
Proof. intro H. unfold np_div. destruct (Req_dec_T y 0); [contradiction | reflexivity]. Qed.

Lemma np_div_zero (x : R) : np_div x 0 = NonFinite.
Proof. unfold np_div. destruct (Req_dec_T 0 0); [reflexivity | contradiction]. Qed.

Lemma np_log_finite (x : R) : 0 < x -> np_log x = Finite (ln x).
Proof. intro H. unfold np_log. destruct (Rlt_dec 0 x); [reflexivity | contradiction]. Qed.

Lemma np_log_nonfinite (x : R) : x <= 0 -> np_log x = NonFinite.
Proof. intro H. unfold np_log. destruct (Rlt_dec 0 x); [lra | reflexivity]. Qed.

Lemma np_sqrt_finite (x : R) : 0 <= x -> np_sqrt x = Finite (sqrt x).
Proof. intro H. unfold np_sqrt. destruct (Rle_dec 0 x); [reflexivity | contradiction]. Qed.

Lemma np_sqrt_nonfinite (x : R) : x < 0 -> np_sqrt x = NonFinite.
Proof. intro H. unfold np_sqrt. destruct (Rle_dec 0 x); [lra | reflexivity]. Qed.

Lemma sqrt_neq_0 (x : R) : 0 < x -> sqrt x <> 0.
Proof. intro H. generalize (sqrt_lt_R0 x H). lra. Qed.

Lemma ratio_pos_nonzero (x y : R) : 0 < x / y -> x <> 0.
Proof. intros H E. subst x. unfold Rdiv in H. rewrite Rmult_0_l in H. lra. Qed.

(** ** Where the formulas are defined *)

(** Inside the domain of the formula -- a non-zero strike, a positive ratio
    [S / K], a positive maturity and a non-zero volatility -- both functions
    return finite values, given by the formulas of the source. *)
Lemma black_scholes_defined (S K T r sigma : R) (option_type : string) :
  K <> 0 -> 0 < S / K -> 0 < T -> sigma <> 0 ->
  black_scholes S K T r sigma option_type =
  Finite (if option_type =? "call" then
            S * norm_cdf (Spec.d1 S K T r sigma)
            - K * exp (- r * T) * norm_cdf (Spec.d2 S K T r sigma)
          else
            K * exp (- r * T) * norm_cdf (- Spec.d2 S K T r sigma)
            - S * norm_cdf (- Spec.d1 S K T r sigma),
          Spec.d1 S K T r sigma, Spec.d2 S K T r sigma).
Proof.
  intros HK Hq HT Hs. unfold black_scholes.
  rewrite py_div_finite by assumption. cbn [bind].
  rewrite np_log_finite by assumption. cbn [bind].
  rewrite np_sqrt_finite by lra. cbn [bind].
  rewrite np_div_finite by (apply Rmult_integral_contrapositive_currified;
                            [assumption | apply sqrt_neq_0; assumption]).
  cbn [bind]. reflexivity.
Qed.

Lemma calculate_greeks_defined (S K T r sigma : R) (option_type : string) :
  K <> 0 -> 0 < S / K -> 0 < T -> sigma <> 0 ->
  calculate_greeks S K T r sigma option_type =
  Finite (if option_type =? "call" then norm_cdf (Spec.d1 S K T r sigma)
          else norm_cdf (Spec.d1 S K T r sigma) - 1,
          Spec.gamma S K T r sigma,
          if option_type =? "put" then
            Spec.theta_base S K T r sigma + r * K * exp (- r * T)
          else Spec.theta_base S K T r sigma).
Proof.
  intros HK Hq HT Hs. unfold calculate_greeks.
  assert (HS : S <> 0) by (apply ratio_pos_nonzero with K; assumption).
  assert (HsT : sqrt T <> 0) by (apply sqrt_neq_0; assumption).
  rewrite py_div_finite by assumption. cbn [bind].
  rewrite np_log_finite by assumption. cbn [bind].
  rewrite np_sqrt_finite by lra. cbn [bind].
  rewrite np_div_finite by (apply Rmult_integral_contrapositive_currified; assumption).
  cbn [bind].
  rewrite np_div_finite
    by (repeat apply Rmult_integral_contrapositive_currified; assumption).
  cbn [bind].
  rewrite np_div_finite
    by (apply Rmult_integral_contrapositive_currified; [lra | assumption]).
  cbn [bind]. reflexivity.
Qed.

Lemma valid_in_domain (S K T sigma : R) :
  Spec.valid S K T sigma -> K <> 0 /\ 0 < S / K /\ 0 < T /\ sigma <> 0.
Proof.
  intros (HS & HK & HT & Hs). repeat split; try lra.
  apply Rdiv_lt_0_compat; assumption.
Qed.

Lemma black_scholes_on_valid (o : Spec.OptionType) (S K T r sigma : R) :
  Spec.valid S K T sigma ->
  black_scholes S K T r sigma (Spec.tag o) =
  Finite (Spec.price S K T r sigma o, Spec.d1 S K T r sigma, Spec.d2 S K T r sigma).
Proof.
  intros Hv. destruct (valid_in_domain S K T sigma Hv) as (H1 & H2 & H3 & H4).
  rewrite black_scholes_defined by assumption.
  destruct o; reflexivity.
Qed.

Lemma calculate_greeks_on_valid (o : Spec.OptionType) (S K T r sigma : R) :
  Spec.valid S K T sigma ->
  calculate_greeks S K T r sigma (Spec.tag o) =
  Finite (Spec.delta S K T r sigma o, Spec.gamma S K T r sigma,
          Spec.theta S K T r sigma o).
Proof.
  intros Hv. destruct (valid_in_domain S K T sigma Hv) as (H1 & H2 & H3 & H4).
  rewrite calculate_greeks_defined by assumption.
  destruct o; reflexivity.
Qed.

(** ** Pricer *)

(** C1.  For valid parameters (spot, strike, time to maturity and volatility
    all positive) [black_scholes] returns the triple [(price, d1, d2)] where
    [d1] and [d2] are the standardised scores of the specification and the
    price is the Black-Scholes call price for ["call"] and the put price for
    ["put"]. *)
Theorem black_scholes_formula (o : Spec.OptionType) (S K T r sigma : R) :
  0 < S -> 0 < K -> 0 < T -> 0 < sigma ->
  black_scholes S K T r sigma (Spec.tag o) =
  Finite (Spec.price S K T r sigma o, Spec.d1 S K T r sigma, Spec.d2 S K T r sigma).
Proof.
  intros HS HK HT Hs.
  apply black_scholes_on_valid. repeat split; assumption.
Qed.

Lemma black_scholes_formula_witness :
  (0 < 100 /\ 0 < 100 /\ 0 < 1 /\ 0 < 0.2) /\
  black_scholes 100 100 1 0.05 0.2 "call" =
  Finite (Spec.price 100 100 1 0.05 0.2 Spec.Call,
          Spec.d1 100 100 1 0.05 0.2, Spec.d2 100 100 1 0.05 0.2).
Proof.
  split; [lra | ].
  apply (black_scholes_formula Spec.Call 100 100 1 0.05 0.2); lra.
Defined.

(** C4.  Put-call parity: for valid parameters the call price minus the put
    price returned by [black_scholes] is [S - K * exp (- r * T)]. *)
Theorem put_call_parity (S K T r sigma : R) :
  0 < S -> 0 < K -> 0 < T -> 0 < sigma ->
  exists call put d1 d2,
    black_scholes S K T r sigma "call" = Finite (call, d1, d2) /\
    black_scholes S K T r sigma "put" = Finite (put, d1, d2) /\
    call - put = S - K * exp (- r * T).
Proof.
  intros HS HK HT Hs.
  exists (Spec.price S K T r sigma Spec.Call), (Spec.price S K T r sigma Spec.Put),
         (Spec.d1 S K T r sigma), (Spec.d2 S K T r sigma).
  split; [ | split].
  - apply (black_scholes_on_valid Spec.Call); repeat split; assumption.
  - apply (black_scholes_on_valid Spec.Put); repeat split; assumption.
  - unfold Spec.price, norm_cdf. rewrite !Normal.cdf_sym. ring.
Qed.

Lemma put_call_parity_witness :
  (0 < 200 /\ 0 < 200 /\ 0 < 0.5 /\ 0 < 0.2) /\
  exists call put d1 d2,
    black_scholes 200 200 0.5 0.02 0.2 "call" = Finite (call, d1, d2) /\
    black_scholes 200 200 0.5 0.02 0.2 "put" = Finite (put, d1, d2) /\
    call - put = 200 - 200 * exp (- (0.02) * 0.5).
Proof.
  split; [lra | ].
  apply (put_call_parity 200 200 0.5 0.02 0.2); lra.
Defined.

(** ** Sensitivity engine *)

(** C3.  For valid parameters [calculate_greeks] returns the triple
    [(delta, gamma, theta)] of the specification: Delta is [Φ(d1)] for a
    call and [Φ(d1) - 1] for a put, Gamma is [φ(d1) / (S σ √T)], and Theta
    is the base term for a call, the base term plus [r K exp (- r T)] for a
    put, with the [d1] and [d2] of the pricer. *)
Theorem calculate_greeks_formula (o : Spec.OptionType) (S K T r sigma : R) :
  0 < S -> 0 < K -> 0 < T -> 0 < sigma ->
  calculate_greeks S K T r sigma (Spec.tag o) =
  Finite (Spec.delta S K T r sigma o, Spec.gamma S K T r sigma,
          Spec.theta S K T r sigma o).
Proof.
  intros HS HK HT Hs.
  apply calculate_greeks_on_valid. repeat split; assumption.
Qed.

Lemma calculate_greeks_formula_witness :
  (0 < 200 /\ 0 < 200 /\ 0 < 0.5 /\ 0 < 0.2) /\
  calculate_greeks 200 200 0.5 0.02 0.2 "put" =
  Finite (Spec.delta 200 200 0.5 0.02 0.2 Spec.Put,
          Spec.gamma 200 200 0.5 0.02 0.2,
          Spec.theta 200 200 0.5 0.02 0.2 Spec.Put).
Proof.
  split; [lra | ].
  apply (calculate_greeks_formula Spec.Put 200 200 0.5 0.02 0.2); lra.
Defined.

(** C7.  For valid parameters the Delta returned by [calculate_greeks] lies
    in [[0, 1]] for a call and in [[-1, 0]] for a put. *)
Theorem delta_bounds (S K T r sigma : R) :
  0 < S -> 0 < K -> 0 < T -> 0 < sigma ->
  (exists delta gamma theta,
      calculate_greeks S K T r sigma "call" = Finite (delta, gamma, theta) /\
      0 <= delta <= 1) /\
  (exists delta gamma theta,
      calculate_greeks S K T r sigma "put" = Finite (delta, gamma, theta) /\
      -1 <= delta <= 0).
Proof.
  intros HS HK HT Hs.
  assert (Hr := Normal.cdf_range (Spec.d1 S K T r sigma)).
  split.
  - exists (Spec.delta S K T r sigma Spec.Call), (Spec.gamma S K T r sigma),
           (Spec.theta S K T r sigma Spec.Call).
    split; [apply (calculate_greeks_on_valid Spec.Call); repeat split; assumption | ].
    unfold Spec.delta, norm_cdf. lra.
  - exists (Spec.delta S K T r sigma Spec.Put), (Spec.gamma S K T r sigma),
           (Spec.theta S K T r sigma Spec.Put).
    split; [apply (calculate_greeks_on_valid Spec.Put); repeat split; assumption | ].
    unfold Spec.delta, norm_cdf. lra.
Qed.

Lemma delta_bounds_witness :
  (0 < 100 /\ 0 < 100 /\ 0 < 1 /\ 0 < 0.2) /\
  (exists delta gamma theta,
      calculate_greeks 100 100 1 0.05 0.2 "call" = Finite (delta, gamma, theta) /\
      0 <= delta <= 1) /\
  (exists delta gamma theta,
      calculate_greeks 100 100 1 0.05 0.2 "put" = Finite (delta, gamma, theta) /\
      -1 <= delta <= 0).
Proof.
  split; [lra | ].
  apply (delta_bounds 100 100 1 0.05 0.2); lra.
Defined.

(** C8.  Gamma symmetry: for valid parameters the Gamma returned for a call
    equals the Gamma returned for a put with the same parameters. *)
Theorem gamma_symmetry (S K T r sigma : R) :
  0 < S -> 0 < K -> 0 < T -> 0 < sigma ->
  exists delta_c theta_c delta_p theta_p gamma,
    calculate_greeks S K T r sigma "call" = Finite (delta_c, gamma, theta_c) /\
    calculate_greeks S K T r sigma "put" = Finite (delta_p, gamma, theta_p).
Proof.
  intros HS HK HT Hs.
  exists (Spec.delta S K T r sigma Spec.Call), (Spec.theta S K T r sigma Spec.Call),
         (Spec.delta S K T r sigma Spec.Put), (Spec.theta S K T r sigma Spec.Put),
         (Spec.gamma S K T r sigma).
  split.
  - apply (calculate_greeks_on_valid Spec.Call); repeat split; assumption.
  - apply (calculate_greeks_on_valid Spec.Put); repeat split; assumption.
Qed.

Lemma gamma_symmetry_witness :
  (0 < 100 /\ 0 < 100 /\ 0 < 1 /\ 0 < 0.2) /\
  exists delta_c theta_c delta_p theta_p gamma,
    calculate_greeks 100 100 1 0.05 0.2 "call" = Finite (delta_c, gamma, theta_c) /\
    calculate_greeks 100 100 1 0.05 0.2 "put" = Finite (delta_p, gamma, theta_p).
Proof.
  split; [lra | ].
  apply (gamma_symmetry 100 100 1 0.05 0.2); lra.
Defined.

(** ** Payoff curve *)

Lemma linspace_length (a b : R) (num : nat) : List.length (linspace a b num) = num.
Proof.
  destruct num as [ | [ | m]]; try reflexivity.
  unfold linspace. rewrite length_app, length_map, length_seq. simpl. lia.
Qed.

Lemma linspace_nth (a b : R) (num i : nat) :
  (2 <= num)%nat -> (i < num)%nat ->
  nth i (linspace a b num) 0 = a + INR i * ((b - a) / INR (num - 1)).
Proof.
  intros Hnum Hi.
  destruct num as [ | [ | m]]; try lia.
  replace (Datatypes.S (Datatypes.S m) - 1)%nat with (Datatypes.S m) by lia.
  unfold linspace.
  set (n := Datatypes.S m) in *.
  set (f := fun k : nat => INR k * ((b - a) / INR n) + a).
  assert (Hn : INR n <> 0) by (apply not_0_INR; discriminate).
  destruct (Nat.eq_dec i n) as [E | E].
  - subst i. rewrite app_nth2; rewrite length_map, length_seq; [ | lia].
    rewrite Nat.sub_diag. simpl nth. field. exact Hn.
  - rewrite app_nth1 by (rewrite length_map, length_seq; lia).
    rewrite (nth_indep _ 0 (f 0%nat)) by (rewrite length_map, length_seq; lia).
    rewrite map_nth, seq_nth by lia. unfold f. simpl plus. ring.
Qed.

Lemma spot_range_length (num : nat) (S : R) : List.length (spot_range num S) = num.
Proof. apply linspace_length. Qed.

Lemma payoff_length (num : nat) (S K price : R) (option_type : string) :
  List.length (payoff num S K price option_type) = num.
Proof.
  unfold payoff. destruct (option_type =? "call");
    rewrite length_map; apply spot_range_length.
Qed.

Lemma payoff_curve_length (num : nat) (S K price : R) (option_type : string) :
  List.length (payoff_curve num S K price option_type) = num.
Proof.
  unfold payoff_curve.
  rewrite length_combine, spot_range_length, payoff_length. apply Nat.min_id.
Qed.

Lemma spot_range_nth (num i : nat) (S : R) :
  (2 <= num)%nat -> (i < num)%nat ->
  nth i (spot_range num S) 0 = Spec.spot_at S num i.
Proof. intros. unfold spot_range, Spec.spot_at. now apply linspace_nth. Qed.

Lemma payoff_curve_nth (num i : nat) (S K price : R) (option_type : string) :
  (i < num)%nat ->
  nth i (payoff_curve num S K price option_type) (0, 0) =
  (nth i (spot_range num S) 0,
   if option_type =? "call" then Rmax (nth i (spot_range num S) 0 - K) 0 - price
   else Rmax (K - nth i (spot_range num S) 0) 0 - price).
Proof.
  intros Hi. unfold payoff_curve.
  rewrite combine_nth by (now rewrite spot_range_length, payoff_length).
  f_equal. unfold payoff.
  destruct (option_type =? "call").
  - set (f := fun s : R => Rmax (s - K) 0 - price).
    rewrite (nth_indep _ 0 (f 0))
      by (now rewrite length_map, spot_range_length).
    now rewrite map_nth.
  - set (f := fun s : R => Rmax (K - s) 0 - price).
    rewrite (nth_indep _ 0 (f 0))
      by (now rewrite length_map, spot_range_length).
    now rewrite map_nth.
Qed.

Lemma spot_at_first (S : R) (num : nat) : Spec.spot_at S num 0 = S * 0.5.
Proof. unfold Spec.spot_at. simpl INR. lra. Qed.

Lemma spot_at_last (S : R) (num : nat) :
  (2 <= num)%nat -> Spec.spot_at S num (num - 1) = S * 1.5.
Proof.
  intros Hn. unfold Spec.spot_at. field.
  apply not_0_INR. lia.
Qed.

Lemma spot_at_lt (S : R) (num i j : nat) :
  (2 <= num)%nat -> 0 < S -> (i < j)%nat ->
  Spec.spot_at S num i < Spec.spot_at S num j.
Proof.
  intros Hn HS Hij. unfold Spec.spot_at.
  assert (Hd : 0 < INR (num - 1)) by (apply lt_0_INR; lia).
  assert (Hstep : 0 < (S * 1.5 - S * 0.5) / INR (num - 1))
    by (apply Rdiv_lt_0_compat; lra).
  apply lt_INR in Hij. nra.
Qed.

(** The chart of the source: 100 points from [S * 0.5] to [S * 1.5]; for a
    call struck at the spot the first point loses the premium and the last
    one earns half the spot less the premium. *)
Example render_payoff_curve_ends (price : R) :
  List.length (render_payoff_curve 100 100 price "call") = 100%nat /\
  nth 0 (render_payoff_curve 100 100 price "call") (0, 0) = (50, - price) /\
  nth 99 (render_payoff_curve 100 100 price "call") (0, 0) = (150, 50 - price).
Proof.
  unfold render_payoff_curve, render_num.
  split; [apply payoff_curve_length | ].
  rewrite !payoff_curve_nth by lia.
  rewrite !spot_range_nth by lia.
  rewrite spot_at_first.
  replace (Spec.spot_at 100 100 99) with (100 * 1.5)
    by (symmetry; apply (spot_at_last 100 100); lia).
  simpl String.eqb.
  replace (100 * 0.5) with 50 by lra.
  replace (100 * 1.5) with 150 by lra.
  rewrite Rmax_right by lra. rewrite Rmax_left by lra.
  split; f_equal; lra.
Qed.

(** C5.  With [numPoints >= 2] the payoff curve has [numPoints] points; the
    [i]-th spot value is the [i]-th of [numPoints] evenly spaced values over
    [[spot * 0.5, spot * 1.5]], the first being [spot * 0.5] and the last
    [spot * 1.5]; and each spot value [s] is paired with
    [max (s - strike) 0 - price] for a call and [max (strike - s) 0 - price]
    for a put.  (The source calls for [numPoints = 100].) *)
Theorem payoff_curve_points (o : Spec.OptionType) (num : nat) (S K price : R) :
  (2 <= num)%nat ->
  List.length (payoff_curve num S K price (Spec.tag o)) = num /\
  (forall i, (i < num)%nat ->
     nth i (payoff_curve num S K price (Spec.tag o)) (0, 0) =
     (Spec.spot_at S num i, Spec.netProfit o (Spec.spot_at S num i) K price)) /\
  Spec.spot_at S num 0 = S * 0.5 /\
  Spec.spot_at S num (num - 1) = S * 1.5.
Proof.
  intros Hn. split; [apply payoff_curve_length | ].
  split; [ | split; [apply spot_at_first | now apply spot_at_last]].
  intros i Hi. rewrite payoff_curve_nth by assumption.
  rewrite spot_range_nth by assumption.
  destruct o; reflexivity.
Qed.

Lemma payoff_curve_points_witness :
  (2 <= render_num)%nat /\
  List.length (render_payoff_curve 100 100 10 "call") = 100%nat /\
  (forall i, (i < 100)%nat ->
     nth i (render_payoff_curve 100 100 10 "call") (0, 0) =
     (Spec.spot_at 100 100 i,
      Spec.netProfit Spec.Call (Spec.spot_at 100 100 i) 100 10)) /\
  Spec.spot_at 100 100 0 = 100 * 0.5 /\
  Spec.spot_at 100 100 (100 - 1) = 100 * 1.5.
Proof.
  assert (H : (2 <= render_num)%nat) by (unfold render_num; lia).
  split; [exact H | ].
  exact (payoff_curve_points Spec.Call render_num 100 100 10 H).
Defined.

(** C6, as stated, fails: nothing keeps the spot positive, and with
    [spot = 0] the 100 spot values of the chart are all equal. *)
Lemma zero_spot_not_increasing :
  ~ ((2 <= render_num)%nat ->
     List.length (render_payoff_curve 0 100 10 "call") = render_num /\
     forall i j, (i < j < render_num)%nat ->
       fst (nth i (render_payoff_curve 0 100 10 "call") (0, 0)) <
       fst (nth j (render_payoff_curve 0 100 10 "call") (0, 0))).
Proof.
  intros H.
  destruct H as [_ Hinc]; [unfold render_num; lia | ].
  specialize (Hinc 0%nat 1%nat ltac:(unfold render_num; lia)).
  unfold render_payoff_curve in Hinc.
  rewrite !payoff_curve_nth in Hinc by (unfold render_num; lia).
  rewrite !spot_range_nth in Hinc by (unfold render_num; lia).
  cbn [fst] in Hinc. unfold Spec.spot_at in Hinc.
  replace (0 * 1.5 - 0 * 0.5) with 0 in Hinc by ring.
  unfold Rdiv in Hinc. rewrite !Rmult_0_l, !Rmult_0_r in Hinc. lra.
Qed.

(** C6, amended.  With [numPoints >= 2] and a positive spot the payoff curve
    has exactly [numPoints] entries and its spot values are strictly
    increasing. *)
Theorem payoff_curve_increasing (num : nat) (S K price : R) (option_type : string) :
  (2 <= num)%nat -> 0 < S ->
  List.length (payoff_curve num S K price option_type) = num /\
  forall i j, (i < j < num)%nat ->
    fst (nth i (payoff_curve num S K price option_type) (0, 0)) <
    fst (nth j (payoff_curve num S K price option_type) (0, 0)).
Proof.
  intros Hn HS. split; [apply payoff_curve_length | ].
  intros i j [Hij Hj].
  rewrite !payoff_curve_nth by lia. simpl fst.
  rewrite !spot_range_nth by lia.
  now apply spot_at_lt.
Qed.

Lemma payoff_curve_increasing_witness :
  ((2 <= render_num)%nat /\ 0 < 100) /\
  List.length (render_payoff_curve 100 100 10 "put") = 100%nat /\
  forall i j, (i < j < 100)%nat ->
    fst (nth i (render_payoff_curve 100 100 10 "put") (0, 0)) <
    fst (nth j (render_payoff_curve 100 100 10 "put") (0, 0)).
Proof.
  assert (H : (2 <= render_num)%nat) by (unfold render_num; lia).
  assert (H0 : 0 < 100) by lra.
  split; [split; assumption | ].
  exact (payoff_curve_increasing render_num 100 100 10 "put" H H0).
Defined.

(** ** Invalid parameters *)

Lemma np_div_nonfinite (x y : R) : y = 0 -> np_div x y = NonFinite.
Proof. intros ->. apply np_div_zero. Qed.

Lemma black_scholes_zero_strike (S T r sigma : R) (option_type : string) :
  black_scholes S 0 T r sigma option_type = Raised ZeroDivisionError.
Proof. unfold black_scholes. now rewrite py_div_raises. Qed.

Lemma calculate_greeks_zero_strike (S T r sigma : R) (option_type : string) :
  calculate_greeks S 0 T r sigma option_type = Raised ZeroDivisionError.
Proof. unfold calculate_greeks. now rewrite py_div_raises. Qed.

(** Outside the domain of the formula, with a non-zero strike, the first
    score [d1] is already NaN or infinite, and nothing is raised. *)
Lemma d1_nonfinite (S K T r sigma : R) (k : R -> outcome (R * R * R)) :
  K <> 0 -> S / K <= 0 \/ T <= 0 \/ sigma = 0 ->
  (q <- py_div S K ;;
   l <- np_log q ;;
   sT <- np_sqrt T ;;
   d1 <- np_div (l + (r + 0.5 * sigma ^ 2) * T) (sigma * sT) ;;
   k d1) = NonFinite.
Proof.
  intros HK Hout.
  rewrite py_div_finite by assumption. cbn [bind].
  destruct (Rle_dec (S / K) 0) as [Hq | Hq].
  { now rewrite np_log_nonfinite. }
  rewrite np_log_finite by lra. cbn [bind].
  destruct (Rlt_dec T 0) as [HT | HT].
  { now rewrite np_sqrt_nonfinite. }
  rewrite np_sqrt_finite by lra. cbn [bind].
  rewrite np_div_nonfinite; [reflexivity | ].
  destruct Hout as [H | [H | H]].
  - contradiction.
  - replace T with 0 by lra. rewrite sqrt_0. ring.
  - subst sigma. ring.
Qed.

Lemma black_scholes_nonfinite (S K T r sigma : R) (option_type : string) :
  K <> 0 -> S / K <= 0 \/ T <= 0 \/ sigma = 0 ->
  black_scholes S K T r sigma option_type = NonFinite.
Proof. intros HK Hout. unfold black_scholes. now apply d1_nonfinite. Qed.

Lemma calculate_greeks_nonfinite (S K T r sigma : R) (option_type : string) :
  K <> 0 -> S / K <= 0 \/ T <= 0 \/ sigma = 0 ->
  calculate_greeks S K T r sigma option_type = NonFinite.
Proof. intros HK Hout. unfold calculate_greeks. now apply d1_nonfinite. Qed.

(** What the specification asks of a call on invalid parameters. *)
Definition rejected (S K T r sigma : R) (option_type : string) : Prop :=
  black_scholes S K T r sigma option_type = Raised InvalidParameter /\
  calculate_greeks S K T r sigma option_type = Raised InvalidParameter.

(** C2, as stated, fails: with [volatility = -0.1] (and the other parameters
    valid) nothing is rejected. *)
Lemma negative_volatility_not_rejected :
  ~ ((1 <= 0 \/ -0.1 <= 0 \/ 100 <= 0 \/ 100 <= 0) ->
     rejected 100 100 1 0.05 (-0.1) "call").
Proof.
  intros H. destruct H as [Hbs _]; [lra | ].
  rewrite black_scholes_defined in Hbs.
  - discriminate Hbs.
  - lra.
  - lra.
  - lra.
  - lra.
Qed.

(** The two invalid inputs the specification lists, and a zero strike. *)
Example negative_volatility_priced :
  black_scholes 100 100 1 0.05 (-0.1) "call" =
  Finite (Spec.price 100 100 1 0.05 (-0.1) Spec.Call,
          Spec.d1 100 100 1 0.05 (-0.1), Spec.d2 100 100 1 0.05 (-0.1)).
Proof. rewrite black_scholes_defined by lra. reflexivity. Qed.

Example zero_maturity_nonfinite :
  black_scholes 100 100 0 0.05 0.2 "call" = NonFinite /\
  calculate_greeks 100 100 0 0.05 0.2 "call" = NonFinite.
Proof.
  split; [apply black_scholes_nonfinite | apply calculate_greeks_nonfinite]; lra.
Qed.

Example zero_strike_raises :
  black_scholes 100 0 1 0.05 0.2 "call" = Raised ZeroDivisionError.
Proof. apply black_scholes_zero_strike. Qed.

(** C2, amended.  In the real-number model (the overflow and underflow of
    floats apart: [sigma ** 2] raises [OverflowError] on a huge volatility)
    neither function validates its parameters, and neither ever raises
    [InvalidParameter]:
    - with [strike = 0] the division [spot / strike] raises
      [ZeroDivisionError];
    - with a non-zero strike, outside the domain of the formula
      ([spot / strike <= 0], [timeToMaturity <= 0] or [volatility = 0]) the
      formula is entered and a NaN/Inf-contaminated result is returned;
    - with a non-zero strike, inside the domain of the formula -- which
      includes every negative volatility -- finite values are returned;
    and the payoff curve is built for every number of points, also below 2. *)
Theorem no_parameter_validation (S K T r sigma : R) (option_type : string) :
  (black_scholes S K T r sigma option_type <> Raised InvalidParameter /\
   calculate_greeks S K T r sigma option_type <> Raised InvalidParameter) /\
  (K = 0 ->
   black_scholes S K T r sigma option_type = Raised ZeroDivisionError /\
   calculate_greeks S K T r sigma option_type = Raised ZeroDivisionError) /\
  (K <> 0 -> S / K <= 0 \/ T <= 0 \/ sigma = 0 ->
   black_scholes S K T r sigma option_type = NonFinite /\
   calculate_greeks S K T r sigma option_type = NonFinite) /\
  (K <> 0 -> 0 < S / K -> 0 < T -> sigma <> 0 ->
   exists p g,
     black_scholes S K T r sigma option_type = Finite p /\
     calculate_greeks S K T r sigma option_type = Finite g) /\
  (forall num price,
     List.length (payoff_curve num S K price option_type) = num).
Proof.
  assert (Hzero : K = 0 ->
    black_scholes S K T r sigma option_type = Raised ZeroDivisionError /\
    calculate_greeks S K T r sigma option_type = Raised ZeroDivisionError).
  { intros ->. split;
      [apply black_scholes_zero_strike | apply calculate_greeks_zero_strike]. }
  assert (Hout : K <> 0 -> S / K <= 0 \/ T <= 0 \/ sigma = 0 ->
    black_scholes S K T r sigma option_type = NonFinite /\
    calculate_greeks S K T r sigma option_type = NonFinite).
  { intros HK Ho. split;
      [now apply black_scholes_nonfinite | now apply calculate_greeks_nonfinite]. }
  assert (Hin : K <> 0 -> 0 < S / K -> 0 < T -> sigma <> 0 ->
    exists p g,
      black_scholes S K T r sigma option_type = Finite p /\
      calculate_greeks S K T r sigma option_type = Finite g).
  { intros HK Hq HT Hs. eexists. eexists. split.
    - now apply black_scholes_defined.
    - now apply calculate_greeks_defined. }
  split; [ | split; [exact Hzero | split; [exact Hout | split; [exact Hin | ]]]].
  - destruct (Req_dec K 0) as [HK | HK].
    + destruct (Hzero HK) as [-> ->]. split; discriminate.
    + destruct (Rle_dec (S / K) 0) as [Hq | Hq];
        [destruct (Hout HK) as [-> ->]; [tauto | split; discriminate] | ].
      destruct (Rle_dec T 0) as [HT | HT];
        [destruct (Hout HK) as [-> ->]; [tauto | split; discriminate] | ].
      destruct (Req_dec sigma 0) as [Hs | Hs];
        [destruct (Hout HK) as [-> ->]; [tauto | split; discriminate] | ].
      destruct (Hin HK) as (p & g & -> & ->); try lra.
      split; discriminate.
  - intros num price. apply payoff_curve_length.
Qed.

Lemma no_parameter_validation_witness :
  (100 <> 0 /\ 0 < 100 / 100 /\ 0 < 1 /\ -0.1 <> 0) /\
  exists p g,
    black_scholes 100 100 1 0.05 (-0.1) "call" = Finite p /\
    calculate_greeks 100 100 1 0.05 (-0.1) "call" = Finite g.
Proof.
  assert (H1 : 100 <> 0) by lra.
  assert (H2 : 0 < 100 / 100) by lra.
  assert (H3 : 0 < 1) by lra.
  assert (H4 : -0.1 <> 0) by lra.
  split; [repeat split; assumption | ].
  exact (proj1 (proj2 (proj2 (proj2
           (no_parameter_validation 100 100 1 0.05 (-0.1) "call"))))
           H1 H2 H3 H4).
Defined.

(** ** Option types other than ["call"] and ["put"] *)

(** Any string other than ["call"] takes the put branch of the price and of
    Delta; Theta receives the put adjustment for the string ["put"] only. *)
Lemma unknown_type_outcome (S K T r sigma : R) (option_type : string) :
  Spec.valid S K T sigma ->
  option_type <> "call" -> option_type <> "put" ->
  black_scholes S K T r sigma option_type =
  Finite (Spec.price S K T r sigma Spec.Put,
          Spec.d1 S K T r sigma, Spec.d2 S K T r sigma) /\
  calculate_greeks S K T r sigma option_type =
  Finite (Spec.delta S K T r sigma Spec.Put, Spec.gamma S K T r sigma,
          Spec.theta S K T r sigma Spec.Call).
Proof.
  intros Hv Hc Hp.
  destruct (valid_in_domain S K T sigma Hv) as (H1 & H2 & H3 & H4).
  apply String.eqb_neq in Hc. apply String.eqb_neq in Hp.
  rewrite black_scholes_defined, calculate_greeks_defined by assumption.
  rewrite Hc, Hp. split; reflexivity.
Qed.

Lemma theta_put_call_differ (S K T r sigma : R) :
  0 < K -> r <> 0 ->
  Spec.theta S K T r sigma Spec.Call <> Spec.theta S K T r sigma Spec.Put.
Proof.
  intros HK Hr. unfold Spec.theta.
  assert (He := exp_pos (- r * T)).
  assert (r * K * exp (- r * T) <> 0); [ | lra].
  repeat apply Rmult_integral_contrapositive_currified; lra.
Qed.

(** C10, at the failing input.  On ["Put"] (wrong case) [calculate_greeks]
    returns the put Delta together with the call Theta, which differs from
    the put Theta; the price returned by [black_scholes] is the put price. *)
Theorem capitalised_put_gets_call_theta :
  black_scholes 100 100 1 0.05 0.2 "Put" =
  Finite (Spec.price 100 100 1 0.05 0.2 Spec.Put,
          Spec.d1 100 100 1 0.05 0.2, Spec.d2 100 100 1 0.05 0.2) /\
  calculate_greeks 100 100 1 0.05 0.2 "Put" =
  Finite (Spec.delta 100 100 1 0.05 0.2 Spec.Put,
          Spec.gamma 100 100 1 0.05 0.2,
          Spec.theta 100 100 1 0.05 0.2 Spec.Call) /\
  Spec.theta 100 100 1 0.05 0.2 Spec.Call <> Spec.theta 100 100 1 0.05 0.2 Spec.Put.
Proof.
  destruct (unknown_type_outcome 100 100 1 0.05 0.2 "Put") as [Hbs Hgk].
  - unfold Spec.valid. lra.
  - discriminate.
  - discriminate.
  - split; [exact Hbs | split; [exact Hgk | ]].
    apply theta_put_call_differ; lra.
Qed.

(** * Further properties of the pricing functions *)

(** ** More on the normal distribution *)

Module NormalTail.
Import Normal.

Lemma gauss_deriv (x : R) : derivable_pt_lim gauss x (- x * gauss x).
Proof.
  unfold gauss.
  replace (- x * exp (- (x * x) / 2))
    with (exp (- (x * x) / 2) * (- (1 * x + x * 1) * / 2)) by lra.
  apply (derivable_pt_lim_comp (fun t => - (t * t) / 2) exp).
  - apply (derivable_pt_lim_ext (fun t => (- (t * t)) * / 2)).
    + intro t. reflexivity.
    + apply (derivable_pt_lim_ext (mult_real_fct (/ 2) (fun t => - (t * t)))).
      * intro t. unfold mult_real_fct. lra.
      * rewrite Rmult_comm. apply derivable_pt_lim_scal.
        apply derivable_pt_lim_opp.
        apply (derivable_pt_lim_mult (fun t => t) (fun t => t));
          apply derivable_pt_lim_id.
  - apply derivable_pt_lim_exp.
Qed.

Lemma pdf_deriv (x : R) : derivable_pt_lim pdf x (- x * pdf x).
Proof.
  unfold pdf.
  apply (derivable_pt_lim_ext (mult_real_fct (/ (2 * half_mass)) gauss)).
  - intro t. unfold mult_real_fct, Rdiv. lra.
  - replace (- x * (gauss x / (2 * half_mass)))
      with (/ (2 * half_mass) * (- x * gauss x)) by (unfold Rdiv; lra).
    apply derivable_pt_lim_scal, gauss_deriv.
Qed.

(** Mills' inequality: beyond [x > 0] the remaining area is at most
    [gauss x / x]. *)
Lemma gauss_tail (x : R) : 0 < x -> half_mass - gauss_area x <= gauss x / x.
Proof.
  intros Hx.
  assert (Hle : half_mass <= gauss_area x + gauss x / x); [ | lra].
  apply half_mass_lub. intros y [z ->].
  assert (Hq : 0 < gauss x / x) by (apply Rdiv_lt_0_compat; [apply gauss_pos | lra]).
  destruct (Rle_dec z x) as [Hz | Hz].
  - generalize (gauss_area_incr z x Hz). lra.
  - pose (u := fun t => - (gauss t / t) - gauss_area t).
    destruct (MVT_cor3 u (fun t => gauss t / (t * t)) x z) as (c & Hc1 & Hc2 & Hu).
    + lra.
    + intros t Ht1 Ht2. unfold u.
      replace (gauss t / (t * t))
        with (- ((- t * gauss t * t - 1 * gauss t) / Rsqr t) - gauss t)
        by (unfold Rsqr; field; lra).
      apply derivable_pt_lim_minus.
      * apply derivable_pt_lim_opp.
        apply (derivable_pt_lim_div gauss (fun t => t)).
        -- apply gauss_deriv.
        -- apply derivable_pt_lim_id.
        -- lra.
      * apply gauss_area_deriv.
    + assert (Hpos : 0 <= gauss c / (c * c) * (z - x)).
      { apply Rmult_le_pos; [ | lra].
        left. apply Rdiv_lt_0_compat; [apply gauss_pos | nra]. }
      assert (Hz' : 0 < gauss z / z)
        by (apply Rdiv_lt_0_compat; [apply gauss_pos | lra]).
      unfold u in Hu. lra.
Qed.

Lemma cdf_tail (y : R) : 0 <= y * cdf y + pdf y.
Proof.
  assert (Hm := half_mass_pos).
  destruct (Rle_dec 0 y) as [Hy | Hy].
  - generalize (cdf_range y) (pdf_pos y). nra.
  - assert (Ht := gauss_tail (- y) ltac:(lra)).
    rewrite gauss_even, gauss_area_odd in Ht.
    unfold cdf, pdf.
    assert (Hq : (half_mass + gauss_area y) * (- y) <= gauss y).
    { apply Rmult_le_compat_r with (r := - y) in Ht; [ | lra].
      replace (gauss y / - y * - y) with (gauss y) in Ht by (field; lra).
      lra. }
    replace (y * (/ 2 + gauss_area y / (2 * half_mass)) + gauss y / (2 * half_mass))
      with ((gauss y - (half_mass + gauss_area y) * (- y)) / (2 * half_mass))
      by (field; lra).
    apply Rmult_le_pos; [lra | left; apply Rinv_0_lt_compat; lra].
Qed.

(** The inequality behind the sign of an option price. *)
Lemma cdf_shift (x a : R) :
  0 <= a -> cdf x <= exp (a * x + a * a / 2) * cdf (x + a).
Proof.
  intros Ha.
  pose (h := fun t => exp (t * x + t * t / 2) * cdf (x + t)).
  assert (Hh : h 0 <= h a).
  { apply (increasing_of_deriv h
             (fun t => exp (t * x + t * t / 2)
                       * ((x + t) * cdf (x + t) + pdf (x + t)))).
    - intro t. unfold h.
      replace (exp (t * x + t * t / 2) * ((x + t) * cdf (x + t) + pdf (x + t)))
        with (exp (t * x + t * t / 2) * (1 * x + (1 * t + t * 1) * / 2) * cdf (x + t)
              + exp (t * x + t * t / 2) * (pdf (x + t) * (0 + 1))) by lra.
      apply (derivable_pt_lim_mult (fun t => exp (t * x + t * t / 2))
                                   (fun t => cdf (x + t))).
      + apply (derivable_pt_lim_comp (fun t => t * x + t * t / 2) exp).
        * apply derivable_pt_lim_plus.
          -- apply (derivable_pt_lim_ext (mult_real_fct x (fun t => t))).
             ++ intro u. unfold mult_real_fct. lra.
             ++ rewrite Rmult_comm. apply derivable_pt_lim_scal, derivable_pt_lim_id.
          -- apply (derivable_pt_lim_ext (mult_real_fct (/ 2) (fun t => t * t))).
             ++ intro u. unfold mult_real_fct. lra.
             ++ rewrite Rmult_comm. apply derivable_pt_lim_scal.
                apply (derivable_pt_lim_mult (fun t => t) (fun t => t));
                  apply derivable_pt_lim_id.
        * apply derivable_pt_lim_exp.
      + apply (derivable_pt_lim_comp (fun t => x + t) cdf).
        * apply derivable_pt_lim_plus;
            [apply derivable_pt_lim_const | apply derivable_pt_lim_id].
        * apply cdf_deriv.
    - intro t. cbv beta. apply Rmult_le_pos; [left; apply exp_pos | apply cdf_tail].
    - exact Ha. }
  unfold h in Hh.
  replace (0 * x + 0 * 0 / 2) with 0 in Hh by lra.
  rewrite exp_0, Rplus_0_r, Rmult_1_l in Hh. exact Hh.
Qed.

(** The distribution function never reaches its bounds. *)
Lemma cdf_lt_1 (x : R) : cdf x < 1.
Proof.
  assert (Hm := half_mass_pos).
  destruct (MVT_cor3 gauss_area gauss x (x + 1)) as (c & _ & _ & Hc).
  - lra.
  - intros; apply gauss_area_deriv.
  - assert (Hg := gauss_pos c). assert (Hu := gauss_area_le_half (x + 1)).
    assert (Hlt : gauss_area x < half_mass) by nra.
    unfold cdf.
    assert (gauss_area x / (2 * half_mass) < / 2); [ | lra].
    apply Rmult_lt_reg_r with (2 * half_mass); [lra | ].
    unfold Rdiv. rewrite Rmult_assoc, Rinv_l by lra. lra.
Qed.

Lemma cdf_gt_0 (x : R) : 0 < cdf x.
Proof. generalize (cdf_lt_1 (- x)). rewrite cdf_sym. lra. Qed.

End NormalTail.

(** ** Components of a returned triple *)

Definition first_of (o : outcome (R * R * R)) : R :=
  match o with Finite (x, _, _) => x | _ => 0 end.

Definition second_of (o : outcome (R * R * R)) : R :=
  match o with Finite (_, y, _) => y | _ => 0 end.

Definition third_of (o : outcome (R * R * R)) : R :=
  match o with Finite (_, _, z) => z | _ => 0 end.

(** ** Identities between the two scores *)

Section Scores.
Variables (S K T r sigma : R).
Hypothesis Hvalid : Spec.valid S K T sigma.

Lemma score_width_pos : 0 < sigma * sqrt T.
Proof.
  destruct Hvalid as (_ & _ & HT & Hs).
  apply Rmult_lt_0_compat; [exact Hs | apply sqrt_lt_R0; exact HT].
Qed.

Lemma score_width_sqr : (sigma * sqrt T) * (sigma * sqrt T) = sigma ^ 2 * T.
Proof.
  destruct Hvalid as (_ & _ & HT & _).
  assert (Hq : sqrt T * sqrt T = T) by (apply sqrt_sqrt; lra).
  simpl pow. rewrite <- Hq at 3. ring.
Qed.

Lemma score_product :
  (sigma * sqrt T) * Spec.d1 S K T r sigma =
  ln (S / K) + (r + 0.5 * sigma ^ 2) * T.
Proof.
  destruct Hvalid as (_ & _ & HT & Hs).
  assert (Hq := sqrt_lt_R0 T HT).
  unfold Spec.d1. field. lra.
Qed.

Lemma score_gap :
  (sigma * sqrt T) * Spec.d2 S K T r sigma
  + (sigma * sqrt T) * (sigma * sqrt T) / 2 = ln (S / K) + r * T.
Proof.
  unfold Spec.d2.
  assert (H1 := score_product). assert (H2 := score_width_sqr). nra.
Qed.

Lemma forward_ratio : exp (ln (S / K) + r * T) * (K * exp (- r * T)) = S.
Proof.
  destruct Hvalid as (HS & HK & _ & _).
  rewrite exp_plus, exp_ln by (apply Rdiv_lt_0_compat; assumption).
  replace (- r * T) with (- (r * T)) by ring. rewrite exp_Ropp.
  field. split; [apply Rgt_not_eq, exp_pos | lra].
Qed.

(** [S φ(d1) = K exp (- r T) φ(d2)]. *)
Lemma pdf_balance :
  S * norm_pdf (Spec.d1 S K T r sigma)
  = K * exp (- r * T) * norm_pdf (Spec.d2 S K T r sigma).
Proof.
  unfold norm_pdf, Normal.pdf.
  assert (Hg : Normal.gauss (Spec.d2 S K T r sigma)
               = Normal.gauss (Spec.d1 S K T r sigma) * exp (ln (S / K) + r * T)).
  { unfold Normal.gauss. rewrite <- exp_plus. f_equal.
    assert (H1 := score_product). assert (H2 := score_width_sqr).
    unfold Spec.d2. nra. }
  rewrite Hg. assert (Hf := forward_ratio).
  assert (Hm := Normal.half_mass_pos).
  rewrite <- Hf at 1. field. lra.
Qed.

(** The call price is not negative, and neither is the put price. *)
Lemma call_price_nonneg :
  0 <= S * norm_cdf (Spec.d1 S K T r sigma)
       - K * exp (- r * T) * norm_cdf (Spec.d2 S K T r sigma).
Proof.
  assert (Ha := score_width_pos).
  assert (Hs := NormalTail.cdf_shift (Spec.d2 S K T r sigma) (sigma * sqrt T)
                  ltac:(lra)).
  rewrite score_gap in Hs.
  replace (Spec.d2 S K T r sigma + sigma * sqrt T)
    with (Spec.d1 S K T r sigma) in Hs by (unfold Spec.d2; ring).
  assert (Hd : 0 < K * exp (- r * T)).
  { destruct Hvalid as (_ & HK & _ & _).
    apply Rmult_lt_0_compat; [exact HK | apply exp_pos]. }
  apply Rmult_le_compat_r with (r := K * exp (- r * T)) in Hs; [ | lra].
  unfold norm_cdf.
  replace (exp (ln (S / K) + r * T) * Normal.cdf (Spec.d1 S K T r sigma)
           * (K * exp (- r * T)))
    with (exp (ln (S / K) + r * T) * (K * exp (- r * T))
          * Normal.cdf (Spec.d1 S K T r sigma)) in Hs by ring.
  rewrite forward_ratio in Hs. lra.
Qed.

Lemma put_price_nonneg :
  0 <= K * exp (- r * T) * norm_cdf (- Spec.d2 S K T r sigma)
       - S * norm_cdf (- Spec.d1 S K T r sigma).
Proof.
  assert (Ha := score_width_pos).
  assert (Hs := NormalTail.cdf_shift (- Spec.d1 S K T r sigma) (sigma * sqrt T)
                  ltac:(lra)).
  replace (- Spec.d1 S K T r sigma + sigma * sqrt T)
    with (- Spec.d2 S K T r sigma) in Hs by (unfold Spec.d2; ring).
  replace (sigma * sqrt T * - Spec.d1 S K T r sigma
           + sigma * sqrt T * (sigma * sqrt T) / 2)
    with (- (ln (S / K) + r * T)) in Hs.
  2:{ assert (H1 := score_product). assert (H2 := score_width_sqr). nra. }
  rewrite exp_Ropp in Hs.
  assert (He : 0 < exp (ln (S / K) + r * T)) by apply exp_pos.
  assert (Hd : 0 < K * exp (- r * T)).
  { destruct Hvalid as (_ & HK & _ & _).
    apply Rmult_lt_0_compat; [exact HK | apply exp_pos]. }
  assert (Hf := forward_ratio).
  unfold norm_cdf.
  set (c1 := Normal.cdf (- Spec.d1 S K T r sigma)) in *.
  set (c2 := Normal.cdf (- Spec.d2 S K T r sigma)) in *.
  set (E := exp (ln (S / K) + r * T)) in *.
  set (D := K * exp (- r * T)) in *.
  assert (Hc2 : 0 <= c2) by apply Normal.cdf_range.
  assert (HE : E * c1 <= c2).
  { apply Rmult_le_compat_l with (r := E) in Hs; [ | lra].
    replace (E * (/ E * c2)) with c2 in Hs by (field; lra). exact Hs. }
  rewrite <- Hf. nra.
Qed.

End Scores.

(** ** The price as a function of the spot and of the maturity *)

Section Sensitivities.
Variables (S K T r sigma : R).
Hypothesis Hvalid : Spec.valid S K T sigma.

Lemma d1_spot_deriv :
  derivable_pt_lim (fun s => Spec.d1 s K T r sigma) S (/ S / (sigma * sqrt T)).
Proof.
  destruct Hvalid as (HS & HK & _ & _).
  unfold Spec.d1.
  apply (derivable_pt_lim_ext
           (mult_real_fct (/ (sigma * sqrt T))
              (fun s => ln (s / K) + (r + 0.5 * sigma ^ 2) * T))).
  { intro s. unfold mult_real_fct, Rdiv. ring. }
  assert (Hl : / S = / (S / K) * (/ K * 1) + 0) by (field; lra).
  replace (/ S / (sigma * sqrt T))
    with (/ (sigma * sqrt T) * (/ (S / K) * (/ K * 1) + 0))
    by (rewrite <- Hl; unfold Rdiv; ring).
  apply derivable_pt_lim_scal.
  apply derivable_pt_lim_plus; [ | apply derivable_pt_lim_const].
  apply (derivable_pt_lim_comp (fun s => s / K) ln).
  - apply (derivable_pt_lim_ext (mult_real_fct (/ K) (fun s => s))).
    + intro s. unfold mult_real_fct, Rdiv. ring.
    + apply derivable_pt_lim_scal, derivable_pt_lim_id.
  - apply derivable_pt_lim_ln. apply Rdiv_lt_0_compat; assumption.
Qed.

Lemma d2_spot_deriv :
  derivable_pt_lim (fun s => Spec.d2 s K T r sigma) S (/ S / (sigma * sqrt T)).
Proof.
  unfold Spec.d2.
  replace (/ S / (sigma * sqrt T)) with (/ S / (sigma * sqrt T) - 0) by ring.
  apply derivable_pt_lim_minus; [apply d1_spot_deriv | apply derivable_pt_lim_const].
Qed.

Lemma cdf_d1_spot_deriv :
  derivable_pt_lim (fun s => norm_cdf (Spec.d1 s K T r sigma)) S
    (Spec.gamma S K T r sigma).
Proof.
  destruct Hvalid as (HS & _ & HT & Hs).
  assert (Hq := sqrt_lt_R0 T HT).
  unfold Spec.gamma.
  replace (norm_pdf (Spec.d1 S K T r sigma) / (S * sigma * sqrt T))
    with (norm_pdf (Spec.d1 S K T r sigma) * (/ S / (sigma * sqrt T)))
    by (field; lra).
  apply (derivable_pt_lim_comp (fun s => Spec.d1 s K T r sigma) norm_cdf).
  - apply d1_spot_deriv.
  - apply Normal.cdf_deriv.
Qed.

Lemma call_price_spot_deriv :
  derivable_pt_lim (fun s => Spec.price s K T r sigma Spec.Call) S
    (Spec.delta S K T r sigma Spec.Call).
Proof.
  assert (Hb := pdf_balance S K T r sigma Hvalid).
  destruct Hvalid as (HS & _ & HT & Hs).
  assert (Hq := sqrt_lt_R0 T HT).
  unfold Spec.price, Spec.delta.
  set (D := / S / (sigma * sqrt T)).
  replace (norm_cdf (Spec.d1 S K T r sigma))
    with ((1 * norm_cdf (Spec.d1 S K T r sigma)
           + S * (norm_pdf (Spec.d1 S K T r sigma) * D))
          - K * exp (- r * T) * (norm_pdf (Spec.d2 S K T r sigma) * D)).
  2:{ rewrite <- Rmult_assoc, <- (Rmult_assoc (K * exp (- r * T))), <- Hb. ring. }
  apply (derivable_pt_lim_minus
           (fun s => s * norm_cdf (Spec.d1 s K T r sigma))
           (fun s => K * exp (- r * T) * norm_cdf (Spec.d2 s K T r sigma))).
  - apply (derivable_pt_lim_mult (fun s => s)
             (fun s => norm_cdf (Spec.d1 s K T r sigma))).
    + apply derivable_pt_lim_id.
    + apply (derivable_pt_lim_comp (fun s => Spec.d1 s K T r sigma) norm_cdf).
      * apply d1_spot_deriv.
      * apply Normal.cdf_deriv.
  - apply (derivable_pt_lim_scal
             (fun s => norm_cdf (Spec.d2 s K T r sigma)) (K * exp (- r * T))).
    apply (derivable_pt_lim_comp (fun s => Spec.d2 s K T r sigma) norm_cdf).
    + apply d2_spot_deriv.
    + apply Normal.cdf_deriv.
Qed.

Lemma put_as_call (s t : R) :
  Spec.price s K t r sigma Spec.Put
  = Spec.price s K t r sigma Spec.Call - s + K * exp (- r * t).
Proof.
  unfold Spec.price, norm_cdf. rewrite !Normal.cdf_sym. ring.
Qed.

Lemma price_spot_deriv (o : Spec.OptionType) :
  derivable_pt_lim (fun s => Spec.price s K T r sigma o) S
    (Spec.delta S K T r sigma o).
Proof.
  destruct o.
  - apply call_price_spot_deriv.
  - apply (derivable_pt_lim_ext
             (fun s => Spec.price s K T r sigma Spec.Call - s + K * exp (- r * T))).
    + intro s. symmetry. apply put_as_call.
    + unfold Spec.delta at 1.
      replace (norm_cdf (Spec.d1 S K T r sigma) - 1)
        with (Spec.delta S K T r sigma Spec.Call - 1 + 0) by (unfold Spec.delta; ring).
      apply derivable_pt_lim_plus; [ | apply derivable_pt_lim_const].
      apply derivable_pt_lim_minus;
        [apply call_price_spot_deriv | apply derivable_pt_lim_id].
Qed.

Lemma delta_spot_deriv (o : Spec.OptionType) :
  derivable_pt_lim (fun s => Spec.delta s K T r sigma o) S
    (Spec.gamma S K T r sigma).
Proof.
  destruct o; unfold Spec.delta.
  - apply cdf_d1_spot_deriv.
  - replace (Spec.gamma S K T r sigma) with (Spec.gamma S K T r sigma - 0) by ring.
    apply derivable_pt_lim_minus;
      [apply cdf_d1_spot_deriv | apply derivable_pt_lim_const].
Qed.

End Sensitivities.

Section Decay.
Variables (S K T r sigma : R).
Hypothesis Hvalid : Spec.valid S K T sigma.

(** Slope of [d1] in the maturity. *)
Definition d1_time_slope : R :=
  ((0 + (r + 0.5 * sigma ^ 2) * 1) * (sigma * sqrt T)
   - sigma * / (2 * sqrt T) * (ln (S / K) + (r + 0.5 * sigma ^ 2) * T))
  / Rsqr (sigma * sqrt T).

Lemma width_time_deriv :
  derivable_pt_lim (fun t => sigma * sqrt t) T (sigma * / (2 * sqrt T)).
Proof.
  destruct Hvalid as (_ & _ & HT & _).
  apply (derivable_pt_lim_scal sqrt sigma), derivable_pt_lim_sqrt, HT.
Qed.

Lemma d1_time_deriv :
  derivable_pt_lim (fun t => Spec.d1 S K t r sigma) T d1_time_slope.
Proof.
  assert (Ha := score_width_pos S K T sigma Hvalid).
  unfold Spec.d1, d1_time_slope.
  apply (derivable_pt_lim_div
           (fun t => ln (S / K) + (r + 0.5 * sigma ^ 2) * t)
           (fun t => sigma * sqrt t)).
  - apply derivable_pt_lim_plus; [apply derivable_pt_lim_const | ].
    apply (derivable_pt_lim_scal (fun t => t)), derivable_pt_lim_id.
  - apply width_time_deriv.
  - lra.
Qed.

Lemma d2_time_deriv :
  derivable_pt_lim (fun t => Spec.d2 S K t r sigma) T
    (d1_time_slope - sigma * / (2 * sqrt T)).
Proof.
  unfold Spec.d2.
  apply (derivable_pt_lim_minus (fun t => Spec.d1 S K t r sigma)
           (fun t => sigma * sqrt t)).
  - apply d1_time_deriv.
  - apply width_time_deriv.
Qed.

Lemma discount_time_deriv :
  derivable_pt_lim (fun t => K * exp (- r * t)) T (K * (exp (- r * T) * (- r * 1))).
Proof.
  apply (derivable_pt_lim_scal (fun t => exp (- r * t)) K).
  apply (derivable_pt_lim_comp (fun t => - r * t) exp).
  - apply (derivable_pt_lim_scal (fun t => t) (- r)), derivable_pt_lim_id.
  - apply derivable_pt_lim_exp.
Qed.

Lemma call_price_time_deriv :
  derivable_pt_lim (fun t => Spec.price S K t r sigma Spec.Call) T
    (- Spec.theta S K T r sigma Spec.Call).
Proof.
  assert (Hb := pdf_balance S K T r sigma Hvalid).
  assert (HT : 0 < T) by apply Hvalid.
  assert (Hq := sqrt_lt_R0 T HT).
  unfold Spec.price, Spec.theta, Spec.theta_base.
  replace (- (- (S * norm_pdf (Spec.d1 S K T r sigma) * sigma) / (2 * sqrt T)
              - r * K * exp (- r * T) * norm_cdf (Spec.d2 S K T r sigma)))
    with (S * (norm_pdf (Spec.d1 S K T r sigma) * d1_time_slope)
          - (K * (exp (- r * T) * (- r * 1)) * norm_cdf (Spec.d2 S K T r sigma)
             + K * exp (- r * T)
               * (norm_pdf (Spec.d2 S K T r sigma)
                  * (d1_time_slope - sigma * / (2 * sqrt T))))).
  2:{ replace (K * exp (- r * T)
               * (norm_pdf (Spec.d2 S K T r sigma)
                  * (d1_time_slope - sigma * / (2 * sqrt T))))
        with (K * exp (- r * T) * norm_pdf (Spec.d2 S K T r sigma)
              * (d1_time_slope - sigma * / (2 * sqrt T))) by ring.
      rewrite <- Hb. field. lra. }
  apply (derivable_pt_lim_minus
           (fun t => S * norm_cdf (Spec.d1 S K t r sigma))
           (fun t => K * exp (- r * t) * norm_cdf (Spec.d2 S K t r sigma))).
  - apply (derivable_pt_lim_scal (fun t => norm_cdf (Spec.d1 S K t r sigma)) S).
    apply (derivable_pt_lim_comp (fun t => Spec.d1 S K t r sigma) norm_cdf).
    + apply d1_time_deriv.
    + apply Normal.cdf_deriv.
  - apply (derivable_pt_lim_mult (fun t => K * exp (- r * t))
             (fun t => norm_cdf (Spec.d2 S K t r sigma))).
    + apply discount_time_deriv.
    + apply (derivable_pt_lim_comp (fun t => Spec.d2 S K t r sigma) norm_cdf).
      * apply d2_time_deriv.
      * apply Normal.cdf_deriv.
Qed.

Lemma price_time_deriv (o : Spec.OptionType) :
  derivable_pt_lim (fun t => Spec.price S K t r sigma o) T
    (- Spec.theta S K T r sigma o).
Proof.
  destruct o.
  - apply call_price_time_deriv.
  - apply (derivable_pt_lim_ext
             (fun t => Spec.price S K t r sigma Spec.Call - S + K * exp (- r * t))).
    + intro t. symmetry. apply put_as_call.
    + replace (- Spec.theta S K T r sigma Spec.Put)
        with (- Spec.theta S K T r sigma Spec.Call - 0
              + K * (exp (- r * T) * (- r * 1)))
        by (unfold Spec.theta; ring).
      apply derivable_pt_lim_plus; [ | apply discount_time_deriv].
      apply derivable_pt_lim_minus;
        [apply call_price_time_deriv | apply derivable_pt_lim_const].
Qed.

End Decay.

Lemma valid_intro (S K T sigma : R) :
  0 < S -> 0 < K -> 0 < T -> 0 < sigma -> Spec.valid S K T sigma.
Proof. intros. repeat split; assumption. Qed.

(** ** Bounds on the price *)

(** X1.  For valid parameters the price returned by [black_scholes] is never
    negative: a call is worth at least [max (S - K exp (- r T)) 0] and at
    most the spot, a put at least [max (K exp (- r T) - S) 0] and at most the
    discounted strike. *)
Theorem price_bounds (o : Spec.OptionType) (S K T r sigma : R) :
  0 < S -> 0 < K -> 0 < T -> 0 < sigma ->
  exists price d1 d2,
    black_scholes S K T r sigma (Spec.tag o) = Finite (price, d1, d2) /\
    match o with
    | Spec.Call => Rmax (S - K * exp (- r * T)) 0 <= price <= S
    | Spec.Put => Rmax (K * exp (- r * T) - S) 0 <= price <= K * exp (- r * T)
    end.
Proof.
  intros HS HK HT Hs.
  assert (Hv := valid_intro S K T sigma HS HK HT Hs).
  exists (Spec.price S K T r sigma o), (Spec.d1 S K T r sigma),
         (Spec.d2 S K T r sigma).
  split; [apply black_scholes_on_valid; exact Hv | ].
  assert (Hc := call_price_nonneg S K T r sigma Hv).
  assert (Hp := put_price_nonneg S K T r sigma Hv).
  assert (Hpc := put_as_call K r sigma S T).
  assert (Hd : 0 < K * exp (- r * T))
    by (apply Rmult_lt_0_compat; [exact HK | apply exp_pos]).
  assert (H1 := Normal.cdf_range (Spec.d1 S K T r sigma)).
  assert (H2 := Normal.cdf_range (Spec.d2 S K T r sigma)).
  assert (H3 := Normal.cdf_range (- Spec.d1 S K T r sigma)).
  assert (H4 := Normal.cdf_range (- Spec.d2 S K T r sigma)).
  unfold Spec.price in *. unfold norm_cdf in *.
  destruct o; (split; [apply Rmax_lub; lra | nra]).
Qed.

Lemma price_bounds_witness :
  (0 < 100 /\ 0 < 100 /\ 0 < 1 /\ 0 < 0.2) /\
  exists price d1 d2,
    black_scholes 100 100 1 0.05 0.2 "put" = Finite (price, d1, d2) /\
    Rmax (100 * exp (- (0.05) * 1) - 100) 0 <= price <= 100 * exp (- (0.05) * 1).
Proof.
  split; [lra | ].
  apply (price_bounds Spec.Put 100 100 1 0.05 0.2); lra.
Defined.

(** ** The Greeks are the sensitivities of the price *)

(** X2.  For valid parameters the Delta returned by [calculate_greeks] is the
    derivative, in the spot, of the price returned by [black_scholes]. *)
Theorem delta_is_spot_derivative (o : Spec.OptionType) (S K T r sigma : R) :
  0 < S -> 0 < K -> 0 < T -> 0 < sigma ->
  derivable_pt_lim
    (fun s => first_of (black_scholes s K T r sigma (Spec.tag o))) S
    (first_of (calculate_greeks S K T r sigma (Spec.tag o))).
Proof.
  intros HS HK HT Hs.
  assert (Hv := valid_intro S K T sigma HS HK HT Hs).
  rewrite calculate_greeks_on_valid by exact Hv. simpl first_of.
  apply (derivable_pt_lim_locally_ext
           (fun s => Spec.price s K T r sigma o) _ S 0 (S + 1)).
  - lra.
  - intros z Hz. rewrite black_scholes_on_valid; [reflexivity | ].
    apply valid_intro; lra.
  - apply price_spot_deriv, Hv.
Qed.

Lemma delta_is_spot_derivative_witness :
  (0 < 100 /\ 0 < 100 /\ 0 < 1 /\ 0 < 0.2) /\
  derivable_pt_lim
    (fun s => first_of (black_scholes s 100 1 0.05 0.2 "call")) 100
    (first_of (calculate_greeks 100 100 1 0.05 0.2 "call")).
Proof.
  split; [lra | ].
  apply (delta_is_spot_derivative Spec.Call 100 100 1 0.05 0.2); lra.
Defined.

(** X3.  For valid parameters the Gamma returned by [calculate_greeks] is the
    derivative, in the spot, of the Delta it returns. *)
Theorem gamma_is_delta_derivative (o : Spec.OptionType) (S K T r sigma : R) :
  0 < S -> 0 < K -> 0 < T -> 0 < sigma ->
  derivable_pt_lim
    (fun s => first_of (calculate_greeks s K T r sigma (Spec.tag o))) S
    (second_of (calculate_greeks S K T r sigma (Spec.tag o))).
Proof.
  intros HS HK HT Hs.
  assert (Hv := valid_intro S K T sigma HS HK HT Hs).
  rewrite calculate_greeks_on_valid by exact Hv. simpl second_of.
  apply (derivable_pt_lim_locally_ext
           (fun s => Spec.delta s K T r sigma o) _ S 0 (S + 1)).
  - lra.
  - intros z Hz. rewrite calculate_greeks_on_valid; [reflexivity | ].
    apply valid_intro; lra.
  - apply delta_spot_deriv, Hv.
Qed.

Lemma gamma_is_delta_derivative_witness :
  (0 < 100 /\ 0 < 100 /\ 0 < 1 /\ 0 < 0.2) /\
  derivable_pt_lim
    (fun s => first_of (calculate_greeks s 100 1 0.05 0.2 "put")) 100
    (second_of (calculate_greeks 100 100 1 0.05 0.2 "put")).
Proof.
  split; [lra | ].
  apply (gamma_is_delta_derivative Spec.Put 100 100 1 0.05 0.2); lra.
Defined.

(** X4.  For valid parameters the Theta returned by [calculate_greeks] is the
    opposite of the derivative, in the time to maturity (in years), of the
    price returned by [black_scholes]. *)
Theorem theta_is_time_decay (o : Spec.OptionType) (S K T r sigma : R) :
  0 < S -> 0 < K -> 0 < T -> 0 < sigma ->
  derivable_pt_lim
    (fun t => first_of (black_scholes S K t r sigma (Spec.tag o))) T
    (- third_of (calculate_greeks S K T r sigma (Spec.tag o))).
Proof.
  intros HS HK HT Hs.
  assert (Hv := valid_intro S K T sigma HS HK HT Hs).
  rewrite calculate_greeks_on_valid by exact Hv. simpl third_of.
  apply (derivable_pt_lim_locally_ext
           (fun t => Spec.price S K t r sigma o) _ T 0 (T + 1)).
  - lra.
  - intros z Hz. rewrite black_scholes_on_valid; [reflexivity | ].
    apply valid_intro; lra.
  - apply price_time_deriv, Hv.
Qed.

Lemma theta_is_time_decay_witness :
  (0 < 200 /\ 0 < 200 /\ 0 < 0.5 /\ 0 < 0.2) /\
  derivable_pt_lim
    (fun t => first_of (black_scholes 200 200 t 0.02 0.2 "put")) 0.5
    (- third_of (calculate_greeks 200 200 0.5 0.02 0.2 "put")).
Proof.
  split; [lra | ].
  apply (theta_is_time_decay Spec.Put 200 200 0.5 0.02 0.2); lra.
Defined.

(** ** Signs and monotonicity *)

Lemma theta_call_neg (S K T r sigma : R) :
  Spec.valid S K T sigma -> 0 <= r -> Spec.theta S K T r sigma Spec.Call < 0.
Proof.
  intros (HS & HK & HT & Hs) Hr.
  unfold Spec.theta, Spec.theta_base.
  assert (Hq := sqrt_lt_R0 T HT).
  assert (Hp := Normal.pdf_pos (Spec.d1 S K T r sigma)).
  assert (Hc := Normal.cdf_range (Spec.d2 S K T r sigma)).
  assert (He := exp_pos (- r * T)).
  unfold norm_pdf, norm_cdf.
  assert (H1 : 0 < S * Normal.pdf (Spec.d1 S K T r sigma) * sigma / (2 * sqrt T)).
  { apply Rdiv_lt_0_compat; [ | lra].
    apply Rmult_lt_0_compat; [apply Rmult_lt_0_compat | ]; assumption. }
  assert (H2 : 0 <= r * K * exp (- r * T) * Normal.cdf (Spec.d2 S K T r sigma)).
  { apply Rmult_le_pos; [apply Rmult_le_pos; [apply Rmult_le_pos | ] | ]; lra. }
  unfold Rdiv in *. lra.
Qed.

Lemma gamma_pos (S K T r sigma : R) :
  Spec.valid S K T sigma -> 0 < Spec.gamma S K T r sigma.
Proof.
  intros (HS & HK & HT & Hs). unfold Spec.gamma, norm_pdf.
  apply Rdiv_lt_0_compat; [apply Normal.pdf_pos | ].
  repeat apply Rmult_lt_0_compat; try assumption. apply sqrt_lt_R0, HT.
Qed.

(** X5.  For valid parameters the Gamma returned by [calculate_greeks] is
    never negative, for a call and for a put, and the Theta of a call is
    never positive when the rate is not negative.  (In exact arithmetic both
    are strict, see [gamma_pos] and [theta_call_neg]; in floating point the
    density underflows to zero far from the strike.) *)
Theorem greeks_signs (S K T r sigma : R) :
  0 < S -> 0 < K -> 0 < T -> 0 < sigma ->
  (exists delta gamma theta,
      calculate_greeks S K T r sigma "call" = Finite (delta, gamma, theta) /\
      0 <= gamma /\ (0 <= r -> theta <= 0)) /\
  (exists delta gamma theta,
      calculate_greeks S K T r sigma "put" = Finite (delta, gamma, theta) /\
      0 <= gamma).
Proof.
  intros HS HK HT Hs.
  assert (Hv := valid_intro S K T sigma HS HK HT Hs).
  assert (Hg := gamma_pos S K T r sigma Hv).
  split.
  - exists (Spec.delta S K T r sigma Spec.Call), (Spec.gamma S K T r sigma),
           (Spec.theta S K T r sigma Spec.Call).
    split; [apply (calculate_greeks_on_valid Spec.Call), Hv | ].
    split; [lra | ].
    intros Hr. left. apply theta_call_neg; assumption.
  - exists (Spec.delta S K T r sigma Spec.Put), (Spec.gamma S K T r sigma),
           (Spec.theta S K T r sigma Spec.Put).
    split; [apply (calculate_greeks_on_valid Spec.Put), Hv | lra].
Qed.

Lemma greeks_signs_witness :
  (0 < 100 /\ 0 < 100 /\ 0 < 1 /\ 0 < 0.2) /\
  (exists delta gamma theta,
      calculate_greeks 100 100 1 0.05 0.2 "call" = Finite (delta, gamma, theta) /\
      0 <= gamma /\ (0 <= 0.05 -> theta <= 0)) /\
  (exists delta gamma theta,
      calculate_greeks 100 100 1 0.05 0.2 "put" = Finite (delta, gamma, theta) /\
      0 <= gamma).
Proof.
  split; [lra | ].
  apply (greeks_signs 100 100 1 0.05 0.2); lra.
Defined.

(** In exact arithmetic the price is strictly monotone in the spot. *)
Lemma price_strict_in_spot (S1 S2 K T r sigma : R) :
  0 < S1 -> S1 < S2 -> 0 < K -> 0 < T -> 0 < sigma ->
  first_of (black_scholes S1 K T r sigma "call")
  < first_of (black_scholes S2 K T r sigma "call") /\
  first_of (black_scholes S2 K T r sigma "put")
  < first_of (black_scholes S1 K T r sigma "put").
Proof.
  intros H1 H12 HK HT Hs.
  assert (Hv1 := valid_intro S1 K T sigma H1 HK HT Hs).
  assert (Hv2 := valid_intro S2 K T sigma ltac:(lra) HK HT Hs).
  rewrite !(black_scholes_on_valid Spec.Call), !(black_scholes_on_valid Spec.Put)
    by assumption.
  cbn [first_of].
  assert (Hmvt : forall o, exists c,
             Spec.price S2 K T r sigma o
             = Spec.price S1 K T r sigma o
               + Spec.delta c K T r sigma o * (S2 - S1)).
  { intro o.
    destruct (MVT_cor3 (fun s => Spec.price s K T r sigma o)
                       (fun s => Spec.delta s K T r sigma o) S1 S2)
      as (c & _ & _ & Hc).
    - exact H12.
    - intros x Hx1 Hx2. apply price_spot_deriv. apply valid_intro; lra.
    - exists c. exact Hc. }
  split.
  - destruct (Hmvt Spec.Call) as (c & ->).
    assert (Hd := NormalTail.cdf_gt_0 (Spec.d1 c K T r sigma)).
    unfold Spec.delta, norm_cdf. nra.
  - destruct (Hmvt Spec.Put) as (c & ->).
    assert (Hd := NormalTail.cdf_lt_1 (Spec.d1 c K T r sigma)).
    unfold Spec.delta, norm_cdf. nra.
Qed.

(** X6.  With the strike, maturity, rate and volatility fixed (and valid),
    the call price returned by [black_scholes] never decreases when the spot
    rises, and the put price never increases.  (Strictly so in exact
    arithmetic; in floating point neighbouring prices far out of the money
    are equal.) *)
Theorem price_monotone_in_spot (S1 S2 K T r sigma : R) :
  0 < S1 -> S1 <= S2 -> 0 < K -> 0 < T -> 0 < sigma ->
  first_of (black_scholes S1 K T r sigma "call")
  <= first_of (black_scholes S2 K T r sigma "call") /\
  first_of (black_scholes S2 K T r sigma "put")
  <= first_of (black_scholes S1 K T r sigma "put").
Proof.
  intros H1 H12 HK HT Hs.
  destruct H12 as [Hlt | <-]; [ | split; apply Rle_refl].
  destruct (price_strict_in_spot S1 S2 K T r sigma H1 Hlt HK HT Hs) as [Hc Hp].
  split; left; assumption.
Qed.

Lemma price_monotone_in_spot_witness :
  (0 < 90 /\ 90 <= 110 /\ 0 < 100 /\ 0 < 1 /\ 0 < 0.2) /\
  first_of (black_scholes 90 100 1 0.05 0.2 "call")
  <= first_of (black_scholes 110 100 1 0.05 0.2 "call") /\
  first_of (black_scholes 110 100 1 0.05 0.2 "put")
  <= first_of (black_scholes 90 100 1 0.05 0.2 "put").
Proof.
  split; [lra | ].
  apply (price_monotone_in_spot 90 110 100 1 0.05 0.2); lra.
Defined.

(** In exact arithmetic, with a rate that is not negative, the call price is
    strictly monotone in the maturity. *)
Lemma call_price_strict_in_maturity (S K T1 T2 r sigma : R) :
  0 < S -> 0 < K -> 0 < T1 -> T1 < T2 -> 0 <= r -> 0 < sigma ->
  first_of (black_scholes S K T1 r sigma "call")
  < first_of (black_scholes S K T2 r sigma "call").
Proof.
  intros HS HK H1 H12 Hr Hs.
  assert (Hv1 := valid_intro S K T1 sigma HS HK H1 Hs).
  assert (Hv2 := valid_intro S K T2 sigma HS HK ltac:(lra) Hs).
  rewrite !(black_scholes_on_valid Spec.Call) by assumption.
  cbn [first_of].
  destruct (MVT_cor3 (fun t => Spec.price S K t r sigma Spec.Call)
                     (fun t => - Spec.theta S K t r sigma Spec.Call) T1 T2)
    as (c & Hc1 & Hc2 & Hc).
  - exact H12.
  - intros x Hx1 Hx2. apply price_time_deriv. apply valid_intro; lra.
  - rewrite Hc.
    assert (Ht := theta_call_neg S K c r sigma
                    (valid_intro S K c sigma HS HK ltac:(lra) Hs) Hr).
    nra.
Qed.

(** X7.  With a rate that is not negative, a call with a longer time to
    maturity is never priced lower by [black_scholes].  (Strictly higher in
    exact arithmetic; in floating point neighbouring prices far out of the
    money are equal.) *)
Theorem call_price_monotone_in_maturity (S K T1 T2 r sigma : R) :
  0 < S -> 0 < K -> 0 < T1 -> T1 <= T2 -> 0 <= r -> 0 < sigma ->
  first_of (black_scholes S K T1 r sigma "call")
  <= first_of (black_scholes S K T2 r sigma "call").
Proof.
  intros HS HK H1 H12 Hr Hs.
  destruct H12 as [Hlt | <-]; [ | apply Rle_refl].
  left. apply call_price_strict_in_maturity; assumption.
Qed.

Lemma call_price_monotone_in_maturity_witness :
  (0 < 100 /\ 0 < 100 /\ 0 < 0.5 /\ 0.5 <= 1 /\ 0 <= 0.05 /\ 0 < 0.2) /\
  first_of (black_scholes 100 100 0.5 0.05 0.2 "call")
  <= first_of (black_scholes 100 100 1 0.05 0.2 "call").
Proof.
  split; [lra | ].
  apply (call_price_monotone_in_maturity 100 100 0.5 1 0.05 0.2); lra.
Defined.

(** ** Change of unit *)

Lemma d1_scale (lam S K T r sigma : R) :
  0 < lam -> 0 < K ->
  Spec.d1 (lam * S) (lam * K) T r sigma = Spec.d1 S K T r sigma.
Proof.
  intros Hl HK. unfold Spec.d1.
  replace (lam * S / (lam * K)) with (S / K) by (field; lra). reflexivity.
Qed.

(** X8.  Prices are homogeneous in the currency unit: multiplying the spot
    and the strike by [lam > 0] multiplies the price and Theta by [lam],
    divides Gamma by [lam], and leaves [d1], [d2] and Delta unchanged. *)
Theorem change_of_unit (o : Spec.OptionType) (lam S K T r sigma : R) :
  0 < lam -> 0 < S -> 0 < K -> 0 < T -> 0 < sigma ->
  exists price d1 d2 delta gamma theta,
    black_scholes S K T r sigma (Spec.tag o) = Finite (price, d1, d2) /\
    calculate_greeks S K T r sigma (Spec.tag o) = Finite (delta, gamma, theta) /\
    black_scholes (lam * S) (lam * K) T r sigma (Spec.tag o)
    = Finite (lam * price, d1, d2) /\
    calculate_greeks (lam * S) (lam * K) T r sigma (Spec.tag o)
    = Finite (delta, gamma / lam, lam * theta).
Proof.
  intros Hl HS HK HT Hs.
  assert (Hv := valid_intro S K T sigma HS HK HT Hs).
  assert (Hv' : Spec.valid (lam * S) (lam * K) T sigma).
  { apply valid_intro; try assumption; apply Rmult_lt_0_compat; assumption. }
  assert (Hq := sqrt_lt_R0 T HT).
  exists (Spec.price S K T r sigma o), (Spec.d1 S K T r sigma),
         (Spec.d2 S K T r sigma), (Spec.delta S K T r sigma o),
         (Spec.gamma S K T r sigma), (Spec.theta S K T r sigma o).
  rewrite !black_scholes_on_valid, !calculate_greeks_on_valid by assumption.
  split; [reflexivity | split; [reflexivity | ]].
  assert (E1 := d1_scale lam S K T r sigma Hl HK).
  assert (E2 : Spec.d2 (lam * S) (lam * K) T r sigma = Spec.d2 S K T r sigma)
    by (unfold Spec.d2; now rewrite E1).
  assert (Ep : Spec.price (lam * S) (lam * K) T r sigma o
               = lam * Spec.price S K T r sigma o)
    by (unfold Spec.price; rewrite E1, E2; destruct o; ring).
  assert (Ed : Spec.delta (lam * S) (lam * K) T r sigma o
               = Spec.delta S K T r sigma o)
    by (unfold Spec.delta; now rewrite E1).
  assert (Eg : Spec.gamma (lam * S) (lam * K) T r sigma
               = Spec.gamma S K T r sigma / lam)
    by (unfold Spec.gamma; rewrite E1; field; lra).
  assert (Et : Spec.theta (lam * S) (lam * K) T r sigma o
               = lam * Spec.theta S K T r sigma o)
    by (unfold Spec.theta, Spec.theta_base; rewrite E1, E2; destruct o; field; lra).
  rewrite Ep, E1, E2, Ed, Eg, Et. split; reflexivity.
Qed.

Lemma change_of_unit_witness :
  (0 < 100 /\ 0 < 1 /\ 0 < 1 /\ 0 < 1 /\ 0 < 0.2) /\
  exists price d1 d2 delta gamma theta,
    black_scholes 1 1 1 0.05 0.2 "call" = Finite (price, d1, d2) /\
    calculate_greeks 1 1 1 0.05 0.2 "call" = Finite (delta, gamma, theta) /\
    black_scholes (100 * 1) (100 * 1) 1 0.05 0.2 "call"
    = Finite (100 * price, d1, d2) /\
    calculate_greeks (100 * 1) (100 * 1) 1 0.05 0.2 "call"
    = Finite (delta, gamma / 100, 100 * theta).
Proof.
  split; [lra | ].
  apply (change_of_unit Spec.Call 100 1 1 1 0.05 0.2); lra.
Defined.

(** * Further properties of the payoff chart *)

(** ** Loss floor, trend and breakeven *)

Lemma spot_at_le (S : R) (num i j : nat) :
  (2 <= num)%nat -> 0 < S -> (i <= j)%nat ->
  Spec.spot_at S num i <= Spec.spot_at S num j.
Proof.
  intros Hn HS Hij.
  destruct (Nat.eq_dec i j) as [-> | Hne]; [lra | ].
  left. apply spot_at_lt; [assumption | assumption | lia].
Qed.

Lemma Rmax_mono_l (a b : R) : a <= b -> Rmax a 0 <= Rmax b 0.
Proof.
  intros H. apply Rmax_lub; [ | apply Rmax_r].
  apply Rle_trans with b; [exact H | apply Rmax_l].
Qed.

(** X9.  Whatever the parameters and the number of points, no point of the
    payoff curve loses more than the premium; and with [numPoints >= 2] and
    a positive spot the net profit never decreases along the curve for
    ["call"] and never increases for any other option type. *)
Theorem payoff_floor_and_trend (num : nat) (S K price : R) (option_type : string) :
  Forall (fun point => - price <= snd point)
         (payoff_curve num S K price option_type) /\
  ((2 <= num)%nat -> 0 < S ->
   forall i j, (i < j < num)%nat ->
     let yi := snd (nth i (payoff_curve num S K price option_type) (0, 0)) in
     let yj := snd (nth j (payoff_curve num S K price option_type) (0, 0)) in
     if option_type =? "call" then yi <= yj else yj <= yi).
Proof.
  split.
  - apply Forall_forall. intros point Hin.
    destruct (In_nth _ _ (0, 0) Hin) as (i & Hi & <-).
    rewrite payoff_curve_length in Hi.
    rewrite payoff_curve_nth by assumption. cbn [snd].
    destruct (option_type =? "call").
    + generalize (Rmax_r (nth i (spot_range num S) 0 - K) 0). lra.
    + generalize (Rmax_r (K - nth i (spot_range num S) 0) 0). lra.
  - intros Hn HS i j [Hij Hj]. cbv zeta.
    rewrite !payoff_curve_nth by lia. cbn [snd].
    rewrite !spot_range_nth by lia.
    assert (Hs := spot_at_lt S num i j Hn HS Hij).
    destruct (option_type =? "call").
    + assert (Hm := Rmax_mono_l (Spec.spot_at S num i - K)
                      (Spec.spot_at S num j - K) ltac:(lra)). lra.
    + assert (Hm := Rmax_mono_l (K - Spec.spot_at S num j)
                      (K - Spec.spot_at S num i) ltac:(lra)). lra.
Qed.

Lemma payoff_floor_and_trend_witness :
  ((2 <= render_num)%nat /\ 0 < 100) /\
  Forall (fun point => - 10 <= snd point)
         (render_payoff_curve 100 100 10 "put") /\
  (forall i j, (i < j < 100)%nat ->
     snd (nth j (render_payoff_curve 100 100 10 "put") (0, 0))
     <= snd (nth i (render_payoff_curve 100 100 10 "put") (0, 0))).
Proof.
  assert (H : (2 <= render_num)%nat) by (unfold render_num; lia).
  assert (H0 : 0 < 100) by lra.
  split; [split; assumption | ].
  split.
  - exact (proj1 (payoff_floor_and_trend render_num 100 100 10 "put")).
  - exact (proj2 (payoff_floor_and_trend render_num 100 100 10 "put") H H0).
Defined.

(** X10.  Breakeven: with a positive premium, a point of the payoff curve
    shows a profit exactly when its spot lies beyond [K + price] for
    ["call"], and exactly when it lies below [K - price] for any other
    option type. *)
Theorem payoff_breakeven (num i : nat) (S K price : R) (option_type : string) :
  (i < num)%nat -> 0 < price ->
  let s := fst (nth i (payoff_curve num S K price option_type) (0, 0)) in
  let y := snd (nth i (payoff_curve num S K price option_type) (0, 0)) in
  if option_type =? "call" then 0 < y <-> K + price < s
  else 0 < y <-> s < K - price.
Proof.
  intros Hi Hp. cbv zeta.
  rewrite payoff_curve_nth by assumption. cbn [fst snd].
  set (s := nth i (spot_range num S) 0).
  destruct (option_type =? "call").
  - unfold Rmax. destruct (Rle_dec (s - K) 0); split; lra.
  - unfold Rmax. destruct (Rle_dec (K - s) 0); split; lra.
Qed.

Lemma payoff_breakeven_witness :
  ((99 < render_num)%nat /\ 0 < 10) /\
  (0 < snd (nth 99 (render_payoff_curve 100 100 10 "call") (0, 0))
   <-> 100 + 10 < fst (nth 99 (render_payoff_curve 100 100 10 "call") (0, 0))).
Proof.
  assert (H : (99 < render_num)%nat) by (unfold render_num; lia).
  assert (H0 : 0 < 10) by lra.
  split; [split; assumption | ].
  exact (payoff_breakeven render_num 99 100 100 10 "call" H H0).
Defined.

(** ** The shaded zones of the chart *)

(** Python's [min] and [max] over a sequence, which keep the current value
    unless the next item is strictly smaller (larger); [None] stands for
    the [ValueError] raised on an empty sequence. *)
Definition py_min (l : list R) : option R :=
  match l with
  | [] => None
  | x :: t => Some (fold_left (fun cur y => if Rlt_dec y cur then y else cur) t x)
  end.

Definition py_max (l : list R) : option R :=
  match l with
  | [] => None
  | x :: t => Some (fold_left (fun cur y => if Rgt_dec y cur then y else cur) t x)
  end.

Record rect : Type := mk_rect { x0 : R; y0 : R; x1 : R; y1 : R }.

(** The two [add_shape] rectangles of [render]: the loss zone from the
    lowest payoff up to zero, the profit zone from zero up to the highest. *)
Definition loss_zone (num : nat) (S K price : R) (option_type : string)
  : option rect :=
  match py_min (spot_range num S), py_min (payoff num S K price option_type),
        py_max (spot_range num S) with
  | Some a, Some b, Some c => Some (mk_rect a b c 0)
  | _, _, _ => None
  end.

Definition profit_zone (num : nat) (S K price : R) (option_type : string)
  : option rect :=
  match py_min (spot_range num S), py_max (spot_range num S),
        py_max (payoff num S K price option_type) with
  | Some a, Some c, Some d => Some (mk_rect a 0 c d)
  | _, _, _ => None
  end.

Lemma fold_min_spec (t : list R) (x : R) :
  let m := fold_left (fun cur y => if Rlt_dec y cur then y else cur) t x in
  In m (x :: t) /\ forall y, In y (x :: t) -> m <= y.
Proof.
  revert x. induction t as [ | z t IH]; intros x; cbn [fold_left].
  - split; [left; reflexivity | intros y [<- | []]; lra].
  - destruct (IH (if Rlt_dec z x then z else x)) as [Hin Hle].
    cbv zeta in *. split.
    + destruct Hin as [Hin | Hin].
      * rewrite <- Hin. destruct (Rlt_dec z x); [right; left | left]; reflexivity.
      * right; right; exact Hin.
    + intros y Hy.
      assert (Hc : (if Rlt_dec z x then z else x) <= x
                   /\ (if Rlt_dec z x then z else x) <= z)
        by (destruct (Rlt_dec z x); lra).
      assert (Hm := Hle _ (or_introl eq_refl)).
      destruct Hy as [<- | [<- | Hy]]; try lra.
      apply Hle. right. exact Hy.
Qed.

Lemma fold_max_spec (t : list R) (x : R) :
  let m := fold_left (fun cur y => if Rgt_dec y cur then y else cur) t x in
  In m (x :: t) /\ forall y, In y (x :: t) -> y <= m.
Proof.
  revert x. induction t as [ | z t IH]; intros x; cbn [fold_left].
  - split; [left; reflexivity | intros y [<- | []]; lra].
  - destruct (IH (if Rgt_dec z x then z else x)) as [Hin Hle].
    cbv zeta in *. split.
    + destruct Hin as [Hin | Hin].
      * rewrite <- Hin. destruct (Rgt_dec z x); [right; left | left]; reflexivity.
      * right; right; exact Hin.
    + intros y Hy.
      assert (Hc : x <= (if Rgt_dec z x then z else x)
                   /\ z <= (if Rgt_dec z x then z else x))
        by (destruct (Rgt_dec z x); lra).
      assert (Hm := Hle _ (or_introl eq_refl)).
      destruct Hy as [<- | [<- | Hy]]; try lra.
      apply Hle. right. exact Hy.
Qed.

Lemma py_min_intro (l : list R) (a : R) :
  In a l -> (forall y, In y l -> a <= y) -> py_min l = Some a.
Proof.
  destruct l as [ | x t]; [intros [] | ]. intros Hin Hle.
  unfold py_min. f_equal.
  destruct (fold_min_spec t x) as [Hm1 Hm2]. cbv zeta in *.
  apply Rle_antisym; [apply Hm2, Hin | apply Hle, Hm1].
Qed.

Lemma py_max_intro (l : list R) (a : R) :
  In a l -> (forall y, In y l -> y <= a) -> py_max l = Some a.
Proof.
  destruct l as [ | x t]; [intros [] | ]. intros Hin Hle.
  unfold py_max. f_equal.
  destruct (fold_max_spec t x) as [Hm1 Hm2]. cbv zeta in *.
  apply Rle_antisym; [apply Hle, Hm1 | apply Hm2, Hin].
Qed.

Lemma payoff_nth (num i : nat) (S K price : R) (option_type : string) :
  (i < num)%nat ->
  nth i (payoff num S K price option_type) 0
  = snd (nth i (payoff_curve num S K price option_type) (0, 0)).
Proof.
  intros Hi. unfold payoff_curve.
  rewrite combine_nth by (now rewrite spot_range_length, payoff_length).
  reflexivity.
Qed.

(** A list whose entries never decrease has its least entry first and its
    greatest entry last; one whose entries never increase, the reverse. *)
Lemma extremes_of_trend (l : list R) (n : nat) (up : bool) :
  List.length l = Datatypes.S n ->
  (forall i j, (i <= j < Datatypes.S n)%nat ->
     if up then nth i l 0 <= nth j l 0 else nth j l 0 <= nth i l 0) ->
  py_min l = Some (nth (if up then 0%nat else n) l 0) /\
  py_max l = Some (nth (if up then n else 0%nat) l 0).
Proof.
  intros Hlen Hmono.
  assert (Hin : forall k, (k < Datatypes.S n)%nat -> In (nth k l 0) l)
    by (intros k Hk; apply nth_In; lia).
  assert (Hidx : forall y, In y l -> exists k, (k < Datatypes.S n)%nat /\ nth k l 0 = y).
  { intros y Hy. destruct (In_nth l y 0 Hy) as (k & Hk & E).
    exists k. split; [lia | exact E]. }
  destruct up; split.
  - apply py_min_intro; [apply Hin; lia | ].
    intros y Hy. destruct (Hidx y Hy) as (k & Hk & <-).
    apply (Hmono 0%nat k). lia.
  - apply py_max_intro; [apply Hin; lia | ].
    intros y Hy. destruct (Hidx y Hy) as (k & Hk & <-).
    apply (Hmono k n). lia.
  - apply py_min_intro; [apply Hin; lia | ].
    intros y Hy. destruct (Hidx y Hy) as (k & Hk & <-).
    apply (Hmono k n). lia.
  - apply py_max_intro; [apply Hin; lia | ].
    intros y Hy. destruct (Hidx y Hy) as (k & Hk & <-).
    apply (Hmono 0%nat k). lia.
Qed.

Lemma payoff_nth_value (num i : nat) (S K price : R) (option_type : string) :
  (2 <= num)%nat -> (i < num)%nat ->
  nth i (payoff num S K price option_type) 0
  = (if option_type =? "call" then Rmax (Spec.spot_at S num i - K) 0
     else Rmax (K - Spec.spot_at S num i) 0) - price.
Proof.
  intros Hn Hi. rewrite payoff_nth, payoff_curve_nth by assumption.
  cbn [snd]. rewrite spot_range_nth by assumption.
  destruct (option_type =? "call"); reflexivity.
Qed.

Lemma zones_values (num : nat) (S K price : R) (option_type : string) :
  (2 <= num)%nat -> 0 < S ->
  loss_zone num S K price option_type
  = Some (mk_rect (S * 0.5)
            ((if option_type =? "call" then Rmax (S * 0.5 - K) 0
              else Rmax (K - S * 1.5) 0) - price)
            (S * 1.5) 0) /\
  profit_zone num S K price option_type
  = Some (mk_rect (S * 0.5) 0 (S * 1.5)
            ((if option_type =? "call" then Rmax (S * 1.5 - K) 0
              else Rmax (K - S * 0.5) 0) - price)) /\
  S * 0.5 < S < S * 1.5.
Proof.
  intros Hn HS.
  destruct num as [ | n]; [lia | ].
  assert (Hfirst := spot_at_first S (Datatypes.S n)).
  assert (Hlast := spot_at_last S (Datatypes.S n) Hn).
  replace (Datatypes.S n - 1)%nat with n in Hlast by lia.
  destruct (extremes_of_trend (spot_range (Datatypes.S n) S) n true)
    as [Hmin Hmax].
  { apply spot_range_length. }
  { intros i j Hij. rewrite !spot_range_nth by lia.
    apply spot_at_le; [assumption | assumption | lia]. }
  rewrite !spot_range_nth, ?Hfirst, ?Hlast in Hmin, Hmax by lia.
  destruct (extremes_of_trend (payoff (Datatypes.S n) S K price option_type) n
              (option_type =? "call")) as [Pmin Pmax].
  { apply payoff_length. }
  { intros i j Hij. rewrite !payoff_nth_value by lia.
    assert (Hs := spot_at_le S (Datatypes.S n) i j Hn HS ltac:(lia)).
    destruct (option_type =? "call").
    - assert (Hm := Rmax_mono_l (Spec.spot_at S (Datatypes.S n) i - K)
                      (Spec.spot_at S (Datatypes.S n) j - K) ltac:(lra)). lra.
    - assert (Hm := Rmax_mono_l (K - Spec.spot_at S (Datatypes.S n) j)
                      (K - Spec.spot_at S (Datatypes.S n) i) ltac:(lra)). lra. }
  unfold loss_zone, profit_zone. rewrite Hmin, Hmax, Pmin, Pmax.
  rewrite !payoff_nth_value by (destruct (option_type =? "call"); lia).
  destruct (option_type =? "call"); rewrite ?Hfirst, ?Hlast;
    (split; [reflexivity | split; [reflexivity | lra]]).
Qed.

(** X11.  With [numPoints >= 2] and a positive spot both shaded zones of the
    chart exist and span the spots from [S * 0.5] to [S * 1.5], around the
    marker of the current spot.  The loss zone starts at the payoff of the
    first point for ["call"] and of the last point otherwise; the profit
    zone ends at the payoff of the last point for ["call"] and of the first
    point otherwise. *)
Theorem chart_zones (num : nat) (S K price : R) (option_type : string) :
  (2 <= num)%nat -> 0 < S ->
  loss_zone num S K price option_type
  = Some (mk_rect (S * 0.5)
            ((if option_type =? "call" then Rmax (S * 0.5 - K) 0
              else Rmax (K - S * 1.5) 0) - price)
            (S * 1.5) 0) /\
  profit_zone num S K price option_type
  = Some (mk_rect (S * 0.5) 0 (S * 1.5)
            ((if option_type =? "call" then Rmax (S * 1.5 - K) 0
              else Rmax (K - S * 0.5) 0) - price)) /\
  S * 0.5 < S < S * 1.5.
Proof. apply zones_values. Qed.

Lemma chart_zones_witness :
  ((2 <= render_num)%nat /\ 0 < 100) /\
  loss_zone render_num 100 100 10 "call"
  = Some (mk_rect (100 * 0.5) (Rmax (100 * 0.5 - 100) 0 - 10) (100 * 1.5) 0) /\
  profit_zone render_num 100 100 10 "call"
  = Some (mk_rect (100 * 0.5) 0 (100 * 1.5) (Rmax (100 * 1.5 - 100) 0 - 10)) /\
  100 * 0.5 < 100 < 100 * 1.5.
Proof.
  assert (H : (2 <= render_num)%nat) by (unfold render_num; lia).
  assert (H0 : 0 < 100) by lra.
  split; [split; assumption | ].
  exact (chart_zones render_num 100 100 10 "call" H H0).
Defined.

(** * The page of the pricer: [render] *)

(** The values of the input widgets during one run of the script: five
    unconstrained [st.number_input] fields, the [st.selectbox] over
    [["call", "put"]], and the button that starts the computation. *)
Record widgets : Type := mk_widgets {
  w_S : R;
  w_K : R;
  w_T : R;
  w_r : R;
  w_sigma : R;
  w_type : Spec.OptionType;
  w_compute : bool
}.

(** What the simulator block displays once the button is pressed. *)
Record simulation : Type := mk_simulation {
  sim_price : R;
  sim_says_sell : bool;       (* "d'acheter" replaced by "de vendre" *)
  sim_greeks : R * R * R;
  sim_curve : list (R * R);
  sim_loss_zone : option rect;
  sim_profit_zone : option rect
}.

(** What the page displays: the simulator block, if any, then the worked
    example of the farmer's put with its two totals. *)
Record page : Type := mk_page {
  page_simulation : option simulation;
  example_price : R;
  total_at_150 : R;
  total_at_250 : R
}.

Definition render_simulator (w : widgets) : outcome (option simulation) :=
  if w_compute w then
    let option_type := Spec.tag (w_type w) in
    pricing <- black_scholes (w_S w) (w_K w) (w_T w) (w_r w) (w_sigma w) option_type ;;
    greeks <- calculate_greeks (w_S w) (w_K w) (w_T w) (w_r w) (w_sigma w) option_type ;;
    let '(price, _, _) := pricing in
    ret (Some (mk_simulation price (option_type =? "put") greeks
                 (render_payoff_curve (w_S w) (w_K w) price option_type)
                 (loss_zone render_num (w_S w) (w_K w) price option_type)
                 (profit_zone render_num (w_S w) (w_K w) price option_type)))
  else ret None.

Definition render (w : widgets) : outcome page :=
  sim <- render_simulator w ;;
  example <- black_scholes 200 200 0.5 0.02 0.2 "put" ;;
  let '(example_price, _, _) := example in
  ret (mk_page sim example_price (150 + 50 - example_price) (250 - example_price)).

(** The worked example is always priced. *)
Lemma example_priced :
  black_scholes 200 200 0.5 0.02 0.2 "put"
  = Finite (Spec.price 200 200 0.5 0.02 0.2 Spec.Put,
            Spec.d1 200 200 0.5 0.02 0.2, Spec.d2 200 200 0.5 0.02 0.2).
Proof. apply (black_scholes_on_valid Spec.Put). unfold Spec.valid. lra. Qed.

(** The three ways a call of the two pricing functions can end, decided by
    the parameters alone and common to both functions. *)
Lemma pricing_cases (S K T r sigma : R) (option_type : string) :
  (K = 0 /\
   black_scholes S K T r sigma option_type = Raised ZeroDivisionError /\
   calculate_greeks S K T r sigma option_type = Raised ZeroDivisionError) \/
  (K <> 0 /\ (S / K <= 0 \/ T <= 0 \/ sigma = 0) /\
   black_scholes S K T r sigma option_type = NonFinite /\
   calculate_greeks S K T r sigma option_type = NonFinite) \/
  (K <> 0 /\ 0 < S / K /\ 0 < T /\ sigma <> 0 /\
   (exists p, black_scholes S K T r sigma option_type = Finite p) /\
   (exists g, calculate_greeks S K T r sigma option_type = Finite g)).
Proof.
  destruct (Req_dec K 0) as [HK | HK].
  { left. subst K. split; [reflexivity | ].
    split; [apply black_scholes_zero_strike | apply calculate_greeks_zero_strike]. }
  right.
  destruct (Rle_dec (S / K) 0) as [Hq | Hq].
  { left. split; [exact HK | ]. split; [tauto | ].
    split; [apply black_scholes_nonfinite | apply calculate_greeks_nonfinite]; tauto. }
  destruct (Rle_dec T 0) as [HT | HT].
  { left. split; [exact HK | ]. split; [tauto | ].
    split; [apply black_scholes_nonfinite | apply calculate_greeks_nonfinite]; tauto. }
  destruct (Req_dec sigma 0) as [Hs | Hs].
  { left. split; [exact HK | ]. split; [tauto | ].
    split; [apply black_scholes_nonfinite | apply calculate_greeks_nonfinite]; tauto. }
  right. repeat split; try assumption; try lra.
  - eexists. apply black_scholes_defined; (assumption || lra).
  - eexists. apply calculate_greeks_defined; (assumption || lra).
Qed.

Lemma render_simulator_idle (w : widgets) :
  w_compute w = false -> render_simulator w = Finite None.
Proof. intros H. unfold render_simulator. now rewrite H. Qed.

Lemma render_simulator_cases (w : widgets) :
  w_compute w = true ->
  (w_K w = 0 /\ render_simulator w = Raised ZeroDivisionError) \/
  (w_K w <> 0 /\ render_simulator w = NonFinite) \/
  (w_K w <> 0 /\ exists sim, render_simulator w = Finite (Some sim)).
Proof.
  intros Hc. unfold render_simulator. rewrite Hc.
  destruct (pricing_cases (w_S w) (w_K w) (w_T w) (w_r w) (w_sigma w)
              (Spec.tag (w_type w)))
    as [(HK & -> & _) | [(HK & _ & -> & _) | (HK & _ & _ & _ & [p ->] & [g ->])]].
  - left. split; [exact HK | reflexivity].
  - right; left. split; [exact HK | reflexivity].
  - right; right. split; [exact HK | ].
    destruct p as [[price d1] d2]. cbn [bind ret]. eexists. reflexivity.
Qed.

Lemma render_after_simulator (w : widgets) :
  render w =
  match render_simulator w with
  | Finite sim =>
      Finite (mk_page sim (Spec.price 200 200 0.5 0.02 0.2 Spec.Put)
                (150 + 50 - Spec.price 200 200 0.5 0.02 0.2 Spec.Put)
                (250 - Spec.price 200 200 0.5 0.02 0.2 Spec.Put))
  | NonFinite => NonFinite
  | Raised e => Raised e
  end.
Proof.
  unfold render. destruct (render_simulator w); cbn [bind]; try reflexivity.
  rewrite example_priced. reflexivity.
Qed.

(** X12.  The page fails in one situation only: the button is pressed with a
    strike of zero, and the exception is then [ZeroDivisionError].  Without
    the button pressed the page is always displayed, without a simulator
    block. *)
Theorem render_failure (w : widgets) :
  (forall e, render w = Raised e <->
             w_compute w = true /\ w_K w = 0 /\ e = ZeroDivisionError) /\
  (w_compute w = false ->
   exists p, render w = Finite p /\ page_simulation p = None).
Proof.
  rewrite render_after_simulator. split.
  - intro e. destruct (w_compute w) eqn:Hc.
    + destruct (render_simulator_cases w Hc)
        as [(HK & ->) | [(HK & ->) | (HK & sim & ->)]].
      * split.
        -- intros E. injection E as <-. auto.
        -- intros (_ & _ & ->). reflexivity.
      * split; [discriminate | intros (_ & HK' & _); contradiction].
      * split; [discriminate | intros (_ & HK' & _); contradiction].
    + rewrite (render_simulator_idle w Hc).
      split; [discriminate | intros (H & _); discriminate].
  - intros Hc. rewrite (render_simulator_idle w Hc).
    eexists. split; reflexivity.
Qed.

(** X13.  With the button pressed on valid parameters the page shows a
    simulator block in which the price, Delta and Theta all belong to the
    selected option type, the price is not negative, the wording says
    "sell" exactly for a put, and the chart has 100 points and both zones. *)
Theorem render_on_valid (w : widgets) :
  w_compute w = true ->
  0 < w_S w -> 0 < w_K w -> 0 < w_T w -> 0 < w_sigma w ->
  exists p sim,
    render w = Finite p /\ page_simulation p = Some sim /\
    sim_price sim
    = Spec.price (w_S w) (w_K w) (w_T w) (w_r w) (w_sigma w) (w_type w) /\
    0 <= sim_price sim /\
    sim_greeks sim
    = (Spec.delta (w_S w) (w_K w) (w_T w) (w_r w) (w_sigma w) (w_type w),
       Spec.gamma (w_S w) (w_K w) (w_T w) (w_r w) (w_sigma w),
       Spec.theta (w_S w) (w_K w) (w_T w) (w_r w) (w_sigma w) (w_type w)) /\
    (sim_says_sell sim = true <-> w_type w = Spec.Put) /\
    List.length (sim_curve sim) = 100%nat /\
    sim_loss_zone sim <> None /\ sim_profit_zone sim <> None.
Proof.
  intros Hc HS HK HT Hs.
  assert (Hv := valid_intro _ _ _ _ HS HK HT Hs).
  rewrite render_after_simulator. unfold render_simulator. rewrite Hc.
  rewrite black_scholes_on_valid, calculate_greeks_on_valid by exact Hv.
  cbn [bind ret].
  eexists. eexists. split; [reflexivity | ]. split; [reflexivity | ].
  cbn [sim_price sim_greeks sim_says_sell sim_curve sim_loss_zone sim_profit_zone].
  split; [reflexivity | ].
  split.
  { destruct (w_type w); unfold Spec.price;
      [apply call_price_nonneg | apply put_price_nonneg]; exact Hv. }
  split; [reflexivity | ].
  split.
  { destruct (w_type w); cbn; split; (reflexivity || discriminate). }
  split; [apply payoff_curve_length | ].
  assert (Hn : (2 <= render_num)%nat) by (unfold render_num; lia).
  destruct (zones_values render_num (w_S w) (w_K w)
              (Spec.price (w_S w) (w_K w) (w_T w) (w_r w) (w_sigma w) (w_type w))
              (Spec.tag (w_type w)) Hn HS) as (-> & -> & _).
  split; discriminate.
Qed.

Lemma render_on_valid_witness :
  (true = true /\ 0 < 100 /\ 0 < 100 /\ 0 < 1 /\ 0 < 0.2) /\
  exists p sim,
    render (mk_widgets 100 100 1 0.05 0.2 Spec.Put true) = Finite p /\
    page_simulation p = Some sim /\
    sim_price sim = Spec.price 100 100 1 0.05 0.2 Spec.Put /\
    0 <= sim_price sim /\
    sim_greeks sim
    = (Spec.delta 100 100 1 0.05 0.2 Spec.Put, Spec.gamma 100 100 1 0.05 0.2,
       Spec.theta 100 100 1 0.05 0.2 Spec.Put) /\
    (sim_says_sell sim = true <-> Spec.Put = Spec.Put) /\
    List.length (sim_curve sim) = 100%nat /\
    sim_loss_zone sim <> None /\ sim_profit_zone sim <> None.
Proof.
  split; [repeat split; lra | ].
  apply (render_on_valid (mk_widgets 100 100 1 0.05 0.2 Spec.Put true));
    cbn [w_compute w_S w_K w_T w_sigma]; (reflexivity || lra).
Defined.

(** * Navigation: [app.py] *)

(** ** Session, buttons, modules *)

(** [st.session_state]: each of the two keys may be absent ([None]);
    [selected_project] holds Python's [None] or a project identifier. *)
Record session : Type := mk_session {
  current_page : option string;
  selected_project : option (option string)
}.

Definition new_session : session := mk_session None None.

(** The session once [main] has set the missing keys. *)
Record nav : Type := mk_nav {
  page_name : string;
  selected : option string
}.

Definition stored (n : nav) : session :=
  mk_session (Some (page_name n)) (Some (selected n)).

(** The entries of [projects] in [render_dashboard]; the icon and the
    description, which are only displayed, are left out. *)
Record project : Type := mk_project { proj_id : string; proj_title : string }.

Definition projects : list project :=
  [mk_project "p01_option_pricer" "Semaine 1 : Pricer d'Options"].

(** The buttons of the two pages; a run of the script is given the answers
    of [st.button] as a function [pressed]. *)
Inductive button : Type :=
| OpenCard (key : string)
| BackToDashboard.

(** What calling [render()] on a loaded project module does. *)
Inductive module_render : Type :=
| RenderReturns
| RenderAttributeError        (* no [render], or [render] raises it *)
| RenderRaises (e : exn).     (* any other exception *)

(** [load_project_module]: [None] when loading raises (the exception is
    caught, reported, and [None] returned). *)
Definition loader : Type := string -> option module_render.

Inductive view : Type :=
| Header
| Intro
| CardView (title : string)
| ProjectView (name : string)
| LoadErrorBox (name : string)
| NoRenderBox (name : string)
| UnderConstructionBox (name : string).

Inductive ending : Type :=
| Completed
| Rerun                       (* [st.rerun()] *)
| Uncaught (e : exn).

Record run : Type := mk_run {
  final : nav;
  shown : list view;
  how : ending
}.

(** ** The script *)

(** The two [if ... not in st.session_state] of [main]. *)
Definition ensure_keys (s : session) : nav :=
  mk_nav (match current_page s with Some p => p | None => "home" end)
         (match selected_project s with Some v => v | None => None end).

(** The loop of [render_dashboard] over the cards. *)
Fixpoint dashboard_cards (pressed : button -> bool) (ps : list project)
  (n : nav) (out : list view) : run :=
  match ps with
  | [] => mk_run n out Completed
  | p :: rest =>
      let out := (out ++ [CardView (proj_title p)])%list in
      if pressed (OpenCard (proj_id p)) then
        mk_run (mk_nav "project" (Some (proj_id p))) out Rerun
      else dashboard_cards pressed rest n out
  end.

Definition render_dashboard (pressed : button -> bool) (n : nav)
  (out : list view) : run :=
  dashboard_cards pressed projects n (out ++ [Intro])%list.

(** [f"{module_name}"]. *)
Definition py_str (v : option string) : string :=
  match v with Some x => x | None => "None" end.

Definition render_project_page (pressed : button -> bool) (load : loader)
  (n : nav) (out : list view) : run :=
  let project_id := py_str (selected n) in
  if pressed BackToDashboard then mk_run (mk_nav "home" None) out Rerun
  else
    match load project_id with
    | Some RenderReturns => mk_run n (out ++ [ProjectView project_id])%list Completed
    | Some RenderAttributeError => mk_run n (out ++ [NoRenderBox project_id])%list Completed
    | Some (RenderRaises e) => mk_run n out (Uncaught e)
    | None =>
        mk_run n (out ++ [LoadErrorBox project_id; UnderConstructionBox project_id])%list
          Completed
    end.

Definition main (pressed : button -> bool) (load : loader) (s : session) : run :=
  let n := ensure_keys s in
  if page_name n =? "home" then render_dashboard pressed n [Header]
  else render_project_page pressed load n [Header].

(** One interaction: the script runs with the buttons as pressed and, when
    it asks for a rerun, runs again at once on the updated session, no
    button being pressed this time. *)
Definition interaction (pressed : button -> bool) (load : loader) (s : session)
  : run :=
  let r := main pressed load s in
  match how r with
  | Rerun => main (fun _ => false) load (stored (final r))
  | _ => r
  end.

(** The sessions the script can produce, starting from a new one. *)
Inductive reachable : session -> Prop :=
| reach_new : reachable new_session
| reach_run (pressed : button -> bool) (load : loader) (s : session) :
    reachable s -> reachable (stored (final (main pressed load s))).

(** The project module of this repository behind the loader: its [render]
    on the widget values [w]. *)
Definition pricer_module (w : widgets) : module_render :=
  match render w with
  | Raised e => RenderRaises e
  | _ => RenderReturns
  end.

Definition repository_loader (w : widgets) : loader :=
  fun name => if name =? "p01_option_pricer" then Some (pricer_module w) else None.

(** ** Navigation properties *)

Definition consistent (n : nav) : Prop :=
  (page_name n = "home" /\ selected n = None) \/
  (page_name n = "project" /\
   exists p, In p projects /\ selected n = Some (proj_id p)).

Lemma ensure_stored (n : nav) : ensure_keys (stored n) = n.
Proof. destruct n. reflexivity. Qed.

Lemma dashboard_cards_final (pressed : button -> bool) (ps : list project)
  (n : nav) (out : list view) :
  let r := dashboard_cards pressed ps n out in
  (how r = Completed /\ final r = n /\
   forall p, In p ps -> pressed (OpenCard (proj_id p)) = false) \/
  (how r = Rerun /\
   exists p, In p ps /\ pressed (OpenCard (proj_id p)) = true /\
             final r = mk_nav "project" (Some (proj_id p))).
Proof.
  revert out. induction ps as [ | p rest IH]; intros out; cbn [dashboard_cards].
  - left. cbn. repeat split. intros p [].
  - destruct (pressed (OpenCard (proj_id p))) eqn:Hp.
    + right. cbn. split; [reflexivity | ].
      exists p. repeat split; [left; reflexivity | exact Hp].
    + destruct (IH (out ++ [CardView (proj_title p)])%list)
        as [(H1 & H2 & H3) | (H1 & q & Hq & Hq' & H2)].
      * left. repeat split; try assumption.
        intros q [<- | Hq]; [exact Hp | apply H3, Hq].
      * right. split; [exact H1 | ].
        exists q. repeat split; [right; exact Hq | exact Hq' | exact H2].
Qed.

Lemma project_page_final (pressed : button -> bool) (load : loader)
  (n : nav) (out : list view) :
  let r := render_project_page pressed load n out in
  (pressed BackToDashboard = true /\ how r = Rerun /\ final r = mk_nav "home" None) \/
  (pressed BackToDashboard = false /\ how r <> Rerun /\ final r = n).
Proof.
  unfold render_project_page.
  destruct (pressed BackToDashboard).
  - left. cbn. repeat split.
  - right. destruct (load (py_str (selected n))) as [[ | | e] | ]; cbn;
      repeat split; discriminate.
Qed.

Lemma main_consistent (pressed : button -> bool) (load : loader) (s : session) :
  consistent (ensure_keys s) -> consistent (final (main pressed load s)).
Proof.
  intros Hc. unfold main.
  destruct (page_name (ensure_keys s) =? "home") eqn:Hp.
  - unfold render_dashboard.
    destruct (dashboard_cards_final pressed projects (ensure_keys s)
                ([Header] ++ [Intro])%list)
      as [(_ & -> & _) | (_ & p & Hin & _ & ->)].
    + exact Hc.
    + right. split; [reflexivity | ]. exists p. split; [exact Hin | reflexivity].
  - destruct (project_page_final pressed load (ensure_keys s) [Header])
      as [(_ & _ & ->) | (_ & _ & ->)].
    + left. split; reflexivity.
    + exact Hc.
Qed.

(** X14.  Every session the script can reach is consistent: either the
    dashboard is current and no project is selected, or the project page is
    current and the selected project is one of the registry. *)
Theorem navigation_invariant (s : session) :
  reachable s -> consistent (ensure_keys s).
Proof.
  induction 1 as [ | pressed load s _ IH].
  - left. split; reflexivity.
  - rewrite ensure_stored. apply main_consistent, IH.
Qed.

Lemma navigation_invariant_witness :
  reachable new_session /\ consistent (ensure_keys new_session).
Proof.
  split; [exact reach_new | exact (navigation_invariant new_session reach_new)].
Defined.

(** X15.  Opening a card and coming back is a round trip: from the
    dashboard, pressing the card of a project asks for a rerun on the
    project page with that project selected; pressing the back button there
    asks for a rerun on the dashboard with no project selected, and the
    dashboard is then displayed again. *)
Theorem open_then_back (p : project) (open back : button -> bool)
  (load : loader) (s : session) :
  page_name (ensure_keys s) = "home" ->
  In p projects ->
  open (OpenCard (proj_id p)) = true ->
  back BackToDashboard = true ->
  let r1 := main open load s in
  let r2 := main back load (stored (final r1)) in
  let r3 := interaction back load (stored (final r1)) in
  how r1 = Rerun /\ final r1 = mk_nav "project" (Some (proj_id p)) /\
  how r2 = Rerun /\ final r2 = mk_nav "home" None /\
  how r3 = Completed /\ final r3 = mk_nav "home" None /\
  shown r3 = [Header; Intro; CardView (proj_title p)].
Proof.
  intros Hhome Hin Hopen Hback. cbv zeta.
  assert (Hp : p = mk_project "p01_option_pricer" "Semaine 1 : Pricer d'Options").
  { destruct Hin as [<- | []]. reflexivity. }
  assert (H1 : main open load s
               = mk_run (mk_nav "project" (Some (proj_id p)))
                   [Header; Intro; CardView (proj_title p)] Rerun).
  { unfold main. rewrite Hhome. cbn [String.eqb Ascii.eqb Bool.eqb].
    unfold render_dashboard, projects. cbn [dashboard_cards].
    rewrite <- Hp, Hopen. reflexivity. }
  rewrite H1. cbn [final how].
  assert (H2 : main back load (stored (mk_nav "project" (Some (proj_id p))))
               = mk_run (mk_nav "home" None) [Header] Rerun).
  { unfold main. rewrite ensure_stored. cbn [page_name].
    cbn [String.eqb Ascii.eqb Bool.eqb].
    unfold render_project_page. rewrite Hback. reflexivity. }
  unfold interaction. rewrite H2. cbn [final how shown].
  repeat split.
  unfold main. rewrite ensure_stored. cbn [page_name]. subst p. reflexivity.
Qed.

Lemma open_then_back_witness :
  (page_name (ensure_keys new_session) = "home" /\
   In (mk_project "p01_option_pricer" "Semaine 1 : Pricer d'Options") projects /\
   (fun _ : button => true) (OpenCard "p01_option_pricer") = true /\
   (fun _ : button => true) BackToDashboard = true) /\
  how (main (fun _ => true) (fun _ => None) new_session) = Rerun /\
  final (main (fun _ => true) (fun _ => None) new_session)
  = mk_nav "project" (Some "p01_option_pricer").
Proof.
  assert (H1 : page_name (ensure_keys new_session) = "home") by reflexivity.
  assert (H2 : In (mk_project "p01_option_pricer" "Semaine 1 : Pricer d'Options")
                  projects) by (left; reflexivity).
  split; [repeat split; assumption | ].
  destruct (open_then_back _ (fun _ => true) (fun _ => true) (fun _ => None)
              new_session H1 H2 eq_refl eq_refl) as (Ha & Hb & _).
  split; [exact Ha | exact Hb].
Defined.

(** X16.  A run asks for a rerun exactly when a navigation button is
    pressed -- the card of a registered project on the dashboard, the back
    button on the project page -- and a run that does not ask for a rerun
    leaves the session as it was. *)
Theorem rerun_iff_pressed (pressed : button -> bool) (load : loader) (s : session) :
  (how (main pressed load s) = Rerun <->
   if page_name (ensure_keys s) =? "home" then
     exists p, In p projects /\ pressed (OpenCard (proj_id p)) = true
   else pressed BackToDashboard = true) /\
  (how (main pressed load s) <> Rerun -> final (main pressed load s) = ensure_keys s).
Proof.
  unfold main.
  destruct (page_name (ensure_keys s) =? "home").
  - unfold render_dashboard.
    destruct (dashboard_cards_final pressed projects (ensure_keys s)
                ([Header] ++ [Intro])%list)
      as [(H1 & H2 & H3) | (H1 & p & Hin & Hp & H2)].
    + split.
      * rewrite H1. split; [discriminate | ].
        intros (p & Hin & Hp). rewrite (H3 p Hin) in Hp. discriminate.
      * intros _. exact H2.
    + split.
      * rewrite H1. split; [ | reflexivity]. intros _. exists p. split; assumption.
      * intros Hn. contradiction.
  - destruct (project_page_final pressed load (ensure_keys s) [Header])
      as [(H1 & H2 & H3) | (H1 & H2 & H3)].
    + split.
      * rewrite H2, H1. split; reflexivity.
      * intros Hn. contradiction.
    + split.
      * rewrite H1. split; [intros E; contradiction | discriminate].
      * intros _. exact H3.
Qed.

Lemma render_raises (w : widgets) (e : exn) :
  render w = Raised e <->
  w_compute w = true /\ w_K w = 0 /\ e = ZeroDivisionError.
Proof.
  rewrite render_after_simulator. destruct (w_compute w) eqn:Hc.
  - destruct (render_simulator_cases w Hc)
      as [(HK & ->) | [(HK & ->) | (HK & sim & ->)]].
    + split.
      * intros E. injection E as <-. auto.
      * intros (_ & _ & ->). reflexivity.
    + split; [discriminate | intros (_ & HK' & _); contradiction].
    + split; [discriminate | intros (_ & HK' & _); contradiction].
  - rewrite (render_simulator_idle w Hc).
    split; [discriminate | intros (H & _); discriminate].
Qed.

Lemma dashboard_never_fails (pressed : button -> bool) (n : nav)
  (out : list view) (e : exn) :
  how (render_dashboard pressed n out) <> Uncaught e.
Proof.
  unfold render_dashboard.
  destruct (dashboard_cards_final pressed projects n (out ++ [Intro])%list)
    as [(-> & _) | (-> & _)]; discriminate.
Qed.

(** X17.  With the project module of the repository loaded, a run of the
    application on a reachable session ends with an uncaught exception in
    one situation only: the project page is current, the back button is not
    pressed, and the pricer is asked to compute with a strike of zero; the
    exception is [ZeroDivisionError], which [render_project_page] does not
    catch. *)
Theorem app_failure (pressed : button -> bool) (w : widgets) (s : session)
  (e : exn) :
  reachable s ->
  (how (main pressed (repository_loader w) s) = Uncaught e <->
   page_name (ensure_keys s) = "project" /\
   pressed BackToDashboard = false /\
   w_compute w = true /\ w_K w = 0 /\ e = ZeroDivisionError).
Proof.
  intros Hr.
  assert (Hinv : consistent (ensure_keys s)).
  { clear e. induction Hr as [ | pr ld s0 _ IH].
    - left. split; reflexivity.
    - rewrite ensure_stored. apply main_consistent, IH. }
  unfold main.
  destruct Hinv as [(Hp & Hs) | (Hp & p & Hin & Hs)]; rewrite Hp.
  - cbn [String.eqb Ascii.eqb Bool.eqb].
    split.
    + intros H. exfalso. exact (dashboard_never_fails _ _ _ _ H).
    + intros (H & _). discriminate H.
  - cbn [String.eqb Ascii.eqb Bool.eqb].
    destruct Hin as [<- | []]. cbn [proj_id] in Hs.
    unfold render_project_page. rewrite Hs. cbn [py_str].
    destruct (pressed BackToDashboard).
    + cbn [how]. split; [discriminate | intros (_ & H & _); discriminate H].
    + unfold repository_loader. cbn [String.eqb Ascii.eqb Bool.eqb].
      unfold pricer_module.
      destruct (render w) as [pg | | e'] eqn:Hrender; cbn [how].
      * split; [discriminate | ].
        intros (_ & _ & H). apply (render_raises w e) in H.
        rewrite Hrender in H. discriminate H.
      * split; [discriminate | ].
        intros (_ & _ & H). apply (render_raises w e) in H.
        rewrite Hrender in H. discriminate H.
      * split.
        -- intros E. injection E as <-.
           apply render_raises in Hrender. tauto.
        -- intros (_ & _ & H). apply (render_raises w e) in H.
           rewrite Hrender in H. injection H as ->. reflexivity.
Qed.

Lemma app_failure_witness :
  reachable (stored (mk_nav "project" (Some "p01_option_pricer"))) /\
  how (main (fun _ => false)
         (repository_loader (mk_widgets 100 0 1 0.05 0.2 Spec.Call true))
         (stored (mk_nav "project" (Some "p01_option_pricer"))))
  = Uncaught ZeroDivisionError.
Proof.
  assert (Hr : reachable (stored (mk_nav "project" (Some "p01_option_pricer")))).
  { exact (reach_run (fun _ => true) (fun _ => None) new_session reach_new). }
  split; [exact Hr | ].
  apply (app_failure (fun _ => false)
           (mk_widgets 100 0 1 0.05 0.2 Spec.Call true) _ ZeroDivisionError Hr).
  repeat split.
Defined.

(** * The price as a function of the volatility *)

Section Volatility.
Variables (S K T r sigma : R).
Hypothesis Hvalid : Spec.valid S K T sigma.

(** Slope of [sigma * sqrt T] and of [d1] in the volatility. *)
Definition width_vol_slope : R := 1 * sqrt T + sigma * 0.

Definition d1_vol_slope : R :=
  ((0 + (0 + 0.5 * (INR 2 * sigma ^ 1)) * T) * (sigma * sqrt T)
   - width_vol_slope * (ln (S / K) + (r + 0.5 * sigma ^ 2) * T))
  / Rsqr (sigma * sqrt T).

Lemma width_vol_deriv :
  derivable_pt_lim (fun v => v * sqrt T) sigma width_vol_slope.
Proof.
  apply (derivable_pt_lim_mult (fun v => v) (fun _ => sqrt T)).
  - apply derivable_pt_lim_id.
  - apply derivable_pt_lim_const.
Qed.

Lemma d1_vol_deriv :
  derivable_pt_lim (fun v => Spec.d1 S K T r v) sigma d1_vol_slope.
Proof.
  assert (Ha := score_width_pos S K T sigma Hvalid).
  unfold Spec.d1, d1_vol_slope.
  apply (derivable_pt_lim_div
           (fun v => ln (S / K) + (r + 0.5 * v ^ 2) * T)
           (fun v => v * sqrt T)).
  - apply derivable_pt_lim_plus; [apply derivable_pt_lim_const | ].
    apply (derivable_pt_lim_ext (mult_real_fct T (fun v => r + 0.5 * v ^ 2))).
    + intro v. unfold mult_real_fct. ring.
    + rewrite Rmult_comm. apply derivable_pt_lim_scal.
      apply derivable_pt_lim_plus; [apply derivable_pt_lim_const | ].
      apply (derivable_pt_lim_scal (fun v => v ^ 2) 0.5).
      apply derivable_pt_lim_pow.
  - apply width_vol_deriv.
  - lra.
Qed.

Lemma d2_vol_deriv :
  derivable_pt_lim (fun v => Spec.d2 S K T r v) sigma
    (d1_vol_slope - width_vol_slope).
Proof.
  unfold Spec.d2.
  apply (derivable_pt_lim_minus (fun v => Spec.d1 S K T r v)
           (fun v => v * sqrt T)).
  - apply d1_vol_deriv.
  - apply width_vol_deriv.
Qed.

Lemma call_price_vol_deriv :
  derivable_pt_lim (fun v => Spec.price S K T r v Spec.Call) sigma
    (S * norm_pdf (Spec.d1 S K T r sigma) * sqrt T).
Proof.
  assert (Hb := pdf_balance S K T r sigma Hvalid).
  unfold Spec.price.
  replace (S * norm_pdf (Spec.d1 S K T r sigma) * sqrt T)
    with (S * (norm_pdf (Spec.d1 S K T r sigma) * d1_vol_slope)
          - K * exp (- r * T)
            * (norm_pdf (Spec.d2 S K T r sigma)
               * (d1_vol_slope - width_vol_slope))).
  2:{ replace (K * exp (- r * T)
               * (norm_pdf (Spec.d2 S K T r sigma)
                  * (d1_vol_slope - width_vol_slope)))
        with (K * exp (- r * T) * norm_pdf (Spec.d2 S K T r sigma)
              * (d1_vol_slope - width_vol_slope)) by ring.
      rewrite <- Hb. unfold width_vol_slope. ring. }
  apply (derivable_pt_lim_minus
           (fun v => S * norm_cdf (Spec.d1 S K T r v))
           (fun v => K * exp (- r * T) * norm_cdf (Spec.d2 S K T r v))).
  - apply (derivable_pt_lim_scal (fun v => norm_cdf (Spec.d1 S K T r v)) S).
    apply (derivable_pt_lim_comp (fun v => Spec.d1 S K T r v) norm_cdf).
    + apply d1_vol_deriv.
    + apply Normal.cdf_deriv.
  - apply (derivable_pt_lim_scal
             (fun v => norm_cdf (Spec.d2 S K T r v)) (K * exp (- r * T))).
    apply (derivable_pt_lim_comp (fun v => Spec.d2 S K T r v) norm_cdf).
    + apply d2_vol_deriv.
    + apply Normal.cdf_deriv.
Qed.

Lemma price_vol_deriv (o : Spec.OptionType) :
  derivable_pt_lim (fun v => Spec.price S K T r v o) sigma
    (S * norm_pdf (Spec.d1 S K T r sigma) * sqrt T).
Proof.
  destruct o.
  - apply call_price_vol_deriv.
  - apply (derivable_pt_lim_ext
             (fun v => Spec.price S K T r v Spec.Call - S + K * exp (- r * T))).
    + intro v. symmetry. apply put_as_call.
    + replace (S * norm_pdf (Spec.d1 S K T r sigma) * sqrt T)
        with (S * norm_pdf (Spec.d1 S K T r sigma) * sqrt T - 0 + 0) by ring.
      apply derivable_pt_lim_plus; [ | apply derivable_pt_lim_const].
      apply derivable_pt_lim_minus;
        [apply call_price_vol_deriv | apply derivable_pt_lim_const].
Qed.

End Volatility.

(** In exact arithmetic the price is strictly monotone in the volatility. *)
Lemma price_strict_in_volatility (o : Spec.OptionType)
  (S K T r sigma1 sigma2 : R) :
  0 < S -> 0 < K -> 0 < T -> 0 < sigma1 -> sigma1 < sigma2 ->
  first_of (black_scholes S K T r sigma1 (Spec.tag o))
  < first_of (black_scholes S K T r sigma2 (Spec.tag o)).
Proof.
  intros HS HK HT H1 H12.
  assert (Hv1 := valid_intro S K T sigma1 HS HK HT H1).
  assert (Hv2 := valid_intro S K T sigma2 HS HK HT ltac:(lra)).
  rewrite !black_scholes_on_valid by assumption. cbn [first_of].
  destruct (MVT_cor3 (fun v => Spec.price S K T r v o)
                     (fun v => S * norm_pdf (Spec.d1 S K T r v) * sqrt T)
                     sigma1 sigma2) as (c & Hc1 & Hc2 & Hc).
  - exact H12.
  - intros x Hx1 Hx2. apply price_vol_deriv. apply valid_intro; lra.
  - rewrite Hc.
    assert (Hp := Normal.pdf_pos (Spec.d1 S K T r c)).
    assert (Hq := sqrt_lt_R0 T HT).
    assert (0 < S * norm_pdf (Spec.d1 S K T r c) * sqrt T).
    { unfold norm_pdf.
      apply Rmult_lt_0_compat; [apply Rmult_lt_0_compat | ]; assumption. }
    nra.
Qed.

(** X18.  The higher the volatility, the dearer the option: with the other
    parameters fixed and valid, the price returned by [black_scholes], for a
    call and for a put, never decreases when the volatility rises.
    (Strictly so in exact arithmetic; in floating point neighbouring prices
    far out of the money are equal.) *)
Theorem price_monotone_in_volatility (o : Spec.OptionType)
  (S K T r sigma1 sigma2 : R) :
  0 < S -> 0 < K -> 0 < T -> 0 < sigma1 -> sigma1 <= sigma2 ->
  first_of (black_scholes S K T r sigma1 (Spec.tag o))
  <= first_of (black_scholes S K T r sigma2 (Spec.tag o)).
Proof.
  intros HS HK HT H1 H12.
  destruct H12 as [Hlt | <-]; [ | apply Rle_refl].
  left. apply price_strict_in_volatility; assumption.
Qed.

Lemma price_monotone_in_volatility_witness :
  (0 < 100 /\ 0 < 100 /\ 0 < 1 /\ 0 < 0.2 /\ 0.2 <= 0.3) /\
  first_of (black_scholes 100 100 1 0.05 0.2 "put")
  <= first_of (black_scholes 100 100 1 0.05 0.3 "put").
Proof.
  split; [lra | ].
  apply (price_monotone_in_volatility Spec.Put 100 100 1 0.05 0.2 0.3); lra.
Defined.

(** X19.  In the real-number model (the overflow and underflow of floats
    apart) [calculate_greeks] ends on every input as [black_scholes] does:
    both raise the same exception, or both return a NaN/Inf-contaminated
    result, or both return finite values. *)
Theorem greeks_end_as_price (S K T r sigma : R) (option_type : string) :
  (forall e,
     black_scholes S K T r sigma option_type = Raised e <->
     calculate_greeks S K T r sigma option_type = Raised e) /\
  (black_scholes S K T r sigma option_type = NonFinite <->
   calculate_greeks S K T r sigma option_type = NonFinite) /\
  ((exists p, black_scholes S K T r sigma option_type = Finite p) <->
   (exists g, calculate_greeks S K T r sigma option_type = Finite g)).
Proof.
  destruct (pricing_cases S K T r sigma option_type)
    as [(_ & -> & ->) | [(_ & _ & -> & ->) | (_ & _ & _ & _ & [p ->] & [g ->])]].
  - split; [intro e; tauto | ].
    split; [split; discriminate | ].
    split; intros [x Hx]; discriminate.
  - split; [intro e; split; discriminate | ].
    split; [tauto | ].
    split; intros [x Hx]; discriminate.
  - split; [intro e; split; discriminate | ].
    split; [split; discriminate | ].
    split; intros _; eexists; reflexivity.
Qed.
